(** * fastlayer: the native dot product of [cpp_hot.cpp]

    The repository exposes one function, [dot_cpp], to Python through
    pybind11.  It receives two numpy arrays of doubles, compares their
    element counts, and accumulates the products of the elements in one
    pass.

    The development below embeds that function over
    - IEEE 754 binary64 values, with the round-to-nearest-even arithmetic
      of the Standard Library's [SpecFloat] (53 bits of precision,
      [emax = 1024]); a NaN carries no payload there;
    - the two array buffers held in a small store, read through an
      index-checked load that also records each access;
    - a state-and-outcome monad for the exception and for reads that
      would leave a buffer.

    An array is a flat sequence: [ptr[i]] is its [i]-th element.
    Rounding errors are measured in the real numbers of the Standard
    Library.

    C++ leaves two things of [s += ptrA[i] * ptrB[i]] to the compiler:
    which of the two operands is read first, and whether the product is
    rounded before the sum or the statement is contracted to one fused
    multiply-add.  [dot_cpp] is the function with buffer A read first and
    the product rounded before the sum; [dot_cpp_as] is the function for
    any order of the reads and either way of rounding, and
    [dot_cpp_as_default] relates the two. *)

From Stdlib Require Import String.
From Stdlib Require Import ZArith List Bool Lia.
From Stdlib Require Import Reals Lra.
From Stdlib Require Import SpecFloat.
Import ListNotations.
Local Open Scope Z_scope.

(** ** binary64 *)

Module F64.

Definition prec : Z := 53.
Definition emax : Z := 1024.

(** A C++ [double]. *)
Definition t : Type := spec_float.

Definition add : t -> t -> t := SFadd prec emax.
Definition sub : t -> t -> t := SFsub prec emax.
Definition mul : t -> t -> t := SFmul prec emax.
Definition abs : t -> t := SFabs.
Definition opp : t -> t := SFopp.

(** [operator==] and [operator<=] on doubles: false as soon as one side
    is a NaN, and [+0.0 == -0.0]. *)
Definition eqb : t -> t -> bool := SFeqb.
Definition leb : t -> t -> bool := SFleb.

(** The literal [0.0]. *)
Definition zero : t := S754_zero false.
Definition nan : t := S754_nan.
Definition infinity : t := S754_infinity false.

(** The double nearest to an integer (exact below [2^53]). *)
Definition of_Z (z : Z) : t := binary_normalize prec emax z 0 false.

(** [DBL_MAX], [0x1.fffffffffffffp+1023]. *)
Definition max_value : t := S754_finite false 9007199254740991 971.

Definition is_nan (x : t) : bool :=
  match x with S754_nan => true | _ => false end.

(** Zero, subnormal or normal: neither an infinity nor a NaN. *)
Definition is_finite (x : t) : bool :=
  match x with
  | S754_zero _ | S754_finite _ _ _ => true
  | _ => false
  end.

(** The members of [spec_float] that are binary64 values. *)
Definition valid (x : t) : bool := valid_binary prec emax x.

End F64.

(** ** Outcomes, store and monad *)

(** [std::runtime_error], the only exception type the source throws. *)
Inductive exn : Type :=
| runtime_error (what : string).

(** The spec's name for the exception of line 8. *)
Definition LengthMismatch : exn := runtime_error "Array size mismatch"%string.

Inductive outcome (A : Type) : Type :=
| Ret (v : A)          (* the function returns [v] *)
| Throw (e : exn)      (* a C++ exception leaves the function *)
| Undefined            (* a read outside a buffer *)
| OutOfFuel.           (* the loop budget of the model ran out *)

Arguments Ret {A} v.
Arguments Throw {A} e.
Arguments Undefined {A}.
Arguments OutOfFuel {A}.

(** The two buffers [bufA.ptr] and [bufB.ptr]. *)
Inductive buffer : Type := BufA | BufB.

(** What a call can observe and touch: the contents of the two arrays,
    owned by the caller, and (ghost) the reads attempted so far. *)
Record state : Type := mkState {
  arrA : list F64.t;
  arrB : list F64.t;
  reads : list (buffer * Z)
}.

Definition contents (p : buffer) (st : state) : list F64.t :=
  match p with BufA => arrA st | BufB => arrB st end.

Definition M (A : Type) : Type := state -> outcome A * state.

Definition ret {A} (v : A) : M A := fun st => (Ret v, st).

Definition bind {A B} (m : M A) (k : A -> M B) : M B :=
  fun st =>
    match m st with
    | (Ret v, st') => k v st'
    | (Throw e, st') => (Throw e, st')
    | (Undefined, st') => (Undefined, st')
    | (OutOfFuel, st') => (OutOfFuel, st')
    end.

Notation "x <- m ;; k" := (bind m (fun x => k))
  (at level 61, m at next level, right associativity).

Definition throw {A} (e : exn) : M A := fun st => (Throw e, st).

Definition out_of_fuel {A} : M A := fun st => (OutOfFuel, st).

(** [a.request().size]: the number of elements of the array, an
    [ssize_t]. *)
Definition request_size (p : buffer) : M Z :=
  fun st => (Ret (Z.of_nat (length (contents p st))), st).

(** Total indexing: [None] outside [0 .. length). *)
Definition index (l : list F64.t) (i : Z) : option F64.t :=
  if i <? 0 then None else nth_error l (Z.to_nat i).

(** [ptr[i]]: the access is recorded, then performed. *)
Definition load (p : buffer) (i : Z) : M F64.t :=
  fun st =>
    let st' := mkState (arrA st) (arrB st) (reads st ++ [(p, i)]) in
    match index (contents p st) i with
    | Some x => (Ret x, st')
    | None => (Undefined, st')
    end.

(** ** The source function *)

(** Lines 12-14: [for (ssize_t i = 0; i < bufA.size; i++) s += ptrA[i] * ptrB[i];]
    followed by [return s].  [i] stays below [size], itself an [ssize_t],
    so [i++] cannot overflow. *)
Fixpoint for_loop (fuel : nat) (size i : Z) (s : F64.t) : M F64.t :=
  match fuel with
  | O => out_of_fuel
  | S fuel' =>
      if i <? size then
        x <- load BufA i ;;
        y <- load BufB i ;;
        for_loop fuel' size (i + 1) (F64.add s (F64.mul x y))
      else ret s
  end.

(** Lines 6-16. *)
Definition dot_cpp : M F64.t :=
  sizeA <- request_size BufA ;;
  sizeB <- request_size BufB ;;
  if negb (sizeA =? sizeB) then throw LengthMismatch
  else for_loop (S (Z.to_nat sizeA)) sizeA 0 F64.zero.

(** A call from a caller holding the sequences [a] and [b]. *)
Definition call (a b : list F64.t) : outcome F64.t * state :=
  dot_cpp (mkState a b []).

(** The spec's [dot]: the outcome of such a call. *)
Definition dot (a b : list F64.t) : outcome F64.t := fst (call a b).

(** ** The source function, build by build *)

(** [x * y + z] with a single rounding, the fused multiply-add of
    IEEE 754: the exact product enters the sum unrounded.  With [z] a
    zero the sum is the product, whose rounding keeps its sign. *)
Definition fused_multiply_add (x y z : F64.t) : F64.t :=
  match x, y with
  | S754_finite sx mx ex, S754_finite sy my ey =>
      match z with
      | S754_zero _ => F64.mul x y
      | _ => F64.add (S754_finite (xorb sx sy) (mx * my) (ex + ey)) z
      end
  | _, _ => F64.add (F64.mul x y) z
  end.

(** The two operands of [ptrA[i] * ptrB[i]] are unsequenced: either
    buffer may be read first. *)
Inductive order : Type := A_first | B_first.

Definition load_operands (o : order) (i : Z) : M (F64.t * F64.t) :=
  match o with
  | A_first => x <- load BufA i ;; y <- load BufB i ;; ret (x, y)
  | B_first => y <- load BufB i ;; x <- load BufA i ;; ret (x, y)
  end.

(** [s += x * y] as a build compiles it: contracted to one fused
    multiply-add, or with the product rounded before the sum. *)
Definition accumulate_as (fused : bool) (s : F64.t) (xy : F64.t * F64.t)
  : F64.t :=
  if fused then fused_multiply_add (fst xy) (snd xy) s
  else F64.add s (F64.mul (fst xy) (snd xy)).

(** Lines 12-14 for a build ([fused]) and an order of the reads of each
    iteration ([sched]). *)
Fixpoint for_loop_as (fused : bool) (sched : Z -> order) (fuel : nat)
         (size i : Z) (s : F64.t) : M F64.t :=
  match fuel with
  | O => out_of_fuel
  | S fuel' =>
      if i <? size then
        xy <- load_operands (sched i) i ;;
        for_loop_as fused sched fuel' size (i + 1) (accumulate_as fused s xy)
      else ret s
  end.

(** Lines 6-16 for a build and an order of the reads. *)
Definition dot_cpp_as (fused : bool) (sched : Z -> order) : M F64.t :=
  sizeA <- request_size BufA ;;
  sizeB <- request_size BufB ;;
  if negb (sizeA =? sizeB) then throw LengthMismatch
  else for_loop_as fused sched (S (Z.to_nat sizeA)) sizeA 0 F64.zero.

(** The reads of a pass over [n] elements from [i] under [sched]. *)
Fixpoint sched_reads (sched : Z -> order) (i : Z) (n : nat)
  : list (buffer * Z) :=
  match n with
  | O => []
  | S n' =>
      match sched i with
      | A_first => (BufA, i) :: (BufB, i) :: sched_reads sched (i + 1) n'
      | B_first => (BufB, i) :: (BufA, i) :: sched_reads sched (i + 1) n'
      end
  end.

(** ** Definitions that follow the spec's words *)

(** One accumulation step, [s + x * y]. *)
Definition accumulate (s : F64.t) (xy : F64.t * F64.t) : F64.t :=
  F64.add s (F64.mul (fst xy) (snd xy)).

(** The left-to-right reduction over the paired elements. *)
Definition dot_fold (a b : list F64.t) : F64.t :=
  fold_left accumulate (combine a b) F64.zero.

(** The spec's sum over [i] in [0 .. k): the accumulator starts at 0.0
    and the [i]-th product is added to the sum of the earlier ones. *)
Fixpoint partial_sum (a b : list F64.t) (k : nat) : F64.t :=
  match k with
  | O => F64.zero
  | S k' =>
      F64.add (partial_sum a b k')
              (F64.mul (nth k' a F64.nan) (nth k' b F64.nan))
  end.

(** The reads of a complete pass over [n] elements starting at [i]. *)
Fixpoint pass_reads (i : Z) (n : nat) : list (buffer * Z) :=
  match n with
  | O => []
  | S n' => (BufA, i) :: (BufB, i) :: pass_reads (i + 1) n'
  end.

(** numpy's [zeros_like]. *)
Definition zeros_like (a : list F64.t) : list F64.t :=
  map (fun _ => F64.zero) a.

(** Elementwise [b + c]. *)
Fixpoint vec_add (b c : list F64.t) : list F64.t :=
  match b, c with
  | x :: b', y :: c' => F64.add x y :: vec_add b' c'
  | _, _ => []
  end.

(** [x == y] on the outcomes of two calls: both returned, and the values
    compare equal as doubles. *)
Definition outcome_eqb (r1 r2 : outcome F64.t) : bool :=
  match r1, r2 with
  | Ret x, Ret y => F64.eqb x y
  | _, _ => false
  end.

(** The read [(p, i)] stays inside buffer [p] of [st]. *)
Definition in_bounds (st : state) (r : buffer * Z) : bool :=
  match index (contents (fst r) st) (snd r) with
  | Some _ => true
  | None => false
  end.


(** [|x - y| <= atol + rtol * |y|], the closeness test of numerical test
    suites, in binary64 arithmetic.  It is false when a side is a NaN. *)
Definition within_tol (atol rtol x y : F64.t) : bool :=
  F64.leb (F64.abs (F64.sub x y)) (F64.add atol (F64.mul rtol (F64.abs y))).

(** ** Integer-valued sequences *)

(** The doubles of a sequence of integers. *)
Definition ints (l : list Z) : list F64.t := map F64.of_Z l.

(** Integers below [2^53] in magnitude: each is a double. *)
Definition smallb (z : Z) : bool := Z.abs z <? 2 ^ 53.

Definition small (z : Z) : Prop := Z.abs z < 2 ^ 53.

Definition sum_smallb (yz : Z * Z) : bool :=
  Z.abs (fst yz) + Z.abs (snd yz) <? 2 ^ 53.

Definition sum_small (yz : Z * Z) : Prop :=
  Z.abs (fst yz) + Z.abs (snd yz) < 2 ^ 53.

(** The dot product over the integers. *)
Fixpoint zdot (za zb : list Z) : Z :=
  match za, zb with
  | x :: za', y :: zb' => x * y + zdot za' zb'
  | _, _ => 0
  end.

(** The sum of the [|x_i| * |y_i|]. *)
Fixpoint mass (za zb : list Z) : Z :=
  match za, zb with
  | x :: za', y :: zb' => Z.abs x * Z.abs y + mass za' zb'
  | _, _ => 0
  end.

Fixpoint zvec_add (zb zc : list Z) : list Z :=
  match zb, zc with
  | y :: zb', z :: zc' => (y + z) :: zvec_add zb' zc'
  | _, _ => []
  end.

(** ** Mantissas *)

(** [p * 2^n]. *)
Definition pshl (p : positive) (n : nat) : positive := Nat.iter n xO p.

(** The number of binary digits of [p]. *)
Definition digits (p : positive) : Z := Zpos (digits2_pos p).

(** A shift record with nothing shifted out. *)
Definition exact (m : positive) : shr_record :=
  Build_shr_record (Zpos m) false false.

(** The double of value [+- p * 2^e], for [p] of at most 53 digits: the
    mantissa is brought to 53 digits. *)
Definition canon (s : bool) (p : positive) (e : Z) : F64.t :=
  S754_finite s (pshl p (Z.to_nat (53 - digits p))) (e + digits p - 53).

(** The integer of sign [s] and magnitude [p]. *)
Definition signed (s : bool) (p : positive) : Z := cond_Zopp s (Zpos p).

(** ** Rounding and real values *)

(** After [n] one-bit shifts of the exact record of [m]: the quotient, the
    last bit shifted out, and whether anything below it was non-zero. *)
Definition shifted (m : Z) (n : Z) (r : shr_record) : Prop :=
  0 <= shr_m r /\
  exists t : Z,
    2 * m = shr_m r * 2 ^ (n + 1) + Z.b2z (shr_r r) * 2 ^ n + t /\
    0 <= t < 2 ^ n /\ (t = 0 <-> shr_s r = false).

(** The two shifts and the rounding of [binary_round_aux], without the
    final classification. *)
Definition round_pair (m e : Z) : Z * Z :=
  let '(mrs', e') := shr_fexp F64.prec F64.emax m e loc_Exact in
  let '(mrs'', e'') :=
    shr_fexp F64.prec F64.emax
             (round_nearest_even (shr_m mrs') (loc_of_shr_record mrs'))
             e' loc_Exact in
  (shr_m mrs'', e'').

(** [2^e] as a real number. *)
Definition bpow (e : Z) : R := powerRZ 2 e.

(** The real number a double stands for (0 for infinities and NaN). *)
Definition B2R (x : F64.t) : R :=
  match x with
  | S754_finite s m e => (IZR (cond_Zopp s (Zpos m)) * bpow e)%R
  | _ => 0%R
  end.

(** The unit roundoff [2^-53] and half the smallest subnormal,
    [2^-1075]. *)
Definition u : R := bpow (-53).
Definition eta : R := bpow (-1075).

(** The real number of sign [s], magnitude [m >= 0] and exponent [e]. *)
Definition sval (s : bool) (m : Z) (e : Z) : R :=
  (IZR (cond_Zopp s m) * bpow e)%R.

(** The exact sum of the products of a list of pairs, and the sum of
    their magnitudes. *)
Fixpoint rsum (l : list (F64.t * F64.t)) : R :=
  match l with
  | [] => 0%R
  | xy :: l' => (B2R (fst xy) * B2R (snd xy) + rsum l')%R
  end.

Fixpoint rabs (l : list (F64.t * F64.t)) : R :=
  match l with
  | [] => 0%R
  | xy :: l' => (Rabs (B2R (fst xy) * B2R (snd xy)) + rabs l')%R
  end.

(** [1 + u]. *)
Definition g : R := (1 + u)%R.

(** The bound after [k] steps, in closed form. *)
Definition acc_bound (k : nat) (T : R) : R :=
  ((g ^ (k + 1) - 1) * T + 3 * INR k * g ^ k * eta)%R.

(** The sum of the magnitudes of a sequence. *)
Fixpoint rnorm1 (a : list F64.t) : R :=
  match a with
  | [] => 0%R
  | x :: a' => (Rabs (B2R x) + rnorm1 a')%R
  end.

(** The tolerance within which [dot] is linear in its second argument,
    for sequences of [length a] elements. *)
Definition linearity_tol (a b c : list F64.t) : R :=
  (2 * (g ^ (length a + 2) - 1)
     * (rabs (combine a b) + rabs (combine a c))
   + g ^ (length a + 1) * (rnorm1 a + 9 * INR (length a) + 1) * eta)%R.

(** ** Signs, magnitudes and overflow *)

(** Sign bit clear and not a NaN: [+0.0], a positive number or [+inf]. *)
Definition nonneg (x : F64.t) : bool :=
  match x with
  | S754_zero false | S754_infinity false | S754_finite false _ _ => true
  | _ => false
  end.

(** The elementwise negation of a sequence. *)
Definition vec_opp (a : list F64.t) : list F64.t := map F64.opp a.

(** Equal, or two zeros: the same value whatever the sign of a zero. *)
Definition same_value (x y : F64.t) : Prop :=
  x = y \/ exists s s', x = S754_zero s /\ y = S754_zero s'.

(** A double that may enter the product: a valid zero or finite value. *)
Definition finite_valid (x : F64.t) : bool := F64.valid x && F64.is_finite x.

Definition pair_ok (xy : F64.t * F64.t) : bool :=
  finite_valid (fst xy) && finite_valid (snd xy).

(** The magnitude the accumulator can reach in [n] steps over products of
    total magnitude [T]. *)
Definition reach (n : nat) (T : R) : R :=
  (g ^ (n + 1) * T + (3 * INR n + 1) * g ^ n * eta)%R.

(** [|x| < 2^M], for a zero or a finite [x]. *)
Definition below (M : Z) (x : F64.t) : bool :=
  match x with
  | S754_zero _ => true
  | S754_finite _ m e => digits m + e <=? M
  | _ => false
  end.

(** A finite value whose exponent is at least [emin], or any other
    value. *)
Definition expo_ok (x : F64.t) : bool :=
  match x with
  | S754_finite _ _ e => -1074 <=? e
  | _ => true
  end.

(** Anything but [-0.0]. *)
Definition not_neg_zero (x : F64.t) : bool :=
  match x with
  | S754_zero true => false
  | _ => true
  end.

(** ** Sample inputs *)

Definition sample_a : list F64.t := [F64.of_Z 1; F64.of_Z 2; F64.of_Z 3].
Definition sample_b : list F64.t := [F64.of_Z 4; F64.of_Z 5; F64.of_Z 6].


(** Three sequences on which a sum is rounded: [2^53 + 1] is not a
    double. *)
Definition round_a : list F64.t := [F64.of_Z 1; F64.of_Z 1].
Definition round_b : list F64.t := [F64.of_Z (2 ^ 53); F64.of_Z 1].
Definition round_c : list F64.t := [F64.of_Z (- 2 ^ 53); F64.zero].

(** Three sequences of length one whose products overflow. *)
Definition overflow_a : list F64.t := [F64.of_Z 2].
Definition overflow_b : list F64.t := [F64.max_value].
Definition overflow_c : list F64.t := [F64.opp F64.max_value].

Definition sample_b4 : list F64.t :=
  [F64.of_Z 4; F64.of_Z 5; F64.of_Z 6; F64.of_Z 7].

Definition sample_nan : list F64.t := [F64.of_Z 1; F64.nan; F64.of_Z 3].

Definition sample_signed : list F64.t :=
  [F64.of_Z (-1); F64.of_Z 2; F64.max_value].

Definition sample_za : list Z := [3; -4; 94906265].
Definition sample_zb : list Z := [-5; 6; 94906265].

(** [-2^-1074], the negative double closest to zero, and [0.5]: their
    product lies halfway between [-2^-1074] and zero. *)
Definition tiny_negative : F64.t := S754_finite true 1 (-1074).
Definition one_half : F64.t := S754_finite false 4503599627370496 (-53).

(** Buffer B first at the even indices, buffer A first at the odd ones. *)
Definition alternating (i : Z) : order :=
  if Z.even i then B_first else A_first.

(** ** The loop *)

Section Loop.

Variables a b : list F64.t.

Lemma index_app_middle (pre post : list F64.t) (x : F64.t) :
  index (pre ++ x :: post) (Z.of_nat (length pre)) = Some x.
Proof.
  unfold index.
  destruct (Z.ltb_spec (Z.of_nat (length pre)) 0) as [Hneg | _]; [lia |].
  rewrite Nat2Z.id, nth_error_app2 by reflexivity.
  now rewrite Nat.sub_diag.
Qed.

(** The loop, started at the end of the prefixes [pa], [pb] with enough
    budget, returns the reduction of the remaining elements and leaves
    the arrays as they were. *)
Lemma for_loop_run :
  forall (ra rb pa pb : list F64.t) (fuel : nat) (s : F64.t)
         (log : list (buffer * Z)),
    a = pa ++ ra -> b = pb ++ rb ->
    length pa = length pb -> length ra = length rb ->
    (length ra < fuel)%nat ->
    for_loop fuel (Z.of_nat (length a)) (Z.of_nat (length pa)) s
             (mkState a b log)
    = (Ret (fold_left accumulate (combine ra rb) s),
       mkState a b (log ++ pass_reads (Z.of_nat (length pa)) (length ra))).
Proof.
  induction ra as [| x ra IH]; intros rb pa pb fuel s log Ha Hb Hp Hr Hf.
  - destruct rb; [| discriminate].
    destruct fuel as [| fuel]; [simpl in Hf; lia |].
    rewrite app_nil_r in Ha. subst pa.
    simpl. rewrite Z.ltb_irrefl. unfold ret.
    now rewrite app_nil_r.
  - destruct rb as [| y rb]; [discriminate |].
    destruct fuel as [| fuel]; [simpl in Hf; lia |].
    simpl in Hr, Hf.
    cbn [for_loop].
    assert (Hlt : (Z.of_nat (length pa) <? Z.of_nat (length a)) = true).
    { apply Z.ltb_lt. rewrite Ha, length_app. simpl. lia. }
    rewrite Hlt.
    unfold bind at 1. unfold load at 1. cbn [contents arrA arrB reads].
    rewrite Ha at 1. rewrite index_app_middle.
    unfold bind at 1. unfold load at 1. cbn [contents arrA arrB reads].
    rewrite Hb at 1. rewrite Hp at 1. rewrite index_app_middle.
    replace (Z.of_nat (length pa) + 1) with (Z.of_nat (length (pa ++ [x])))
      by (rewrite length_app; simpl; lia).
    rewrite (IH rb (pa ++ [x]) (pb ++ [y]) fuel); try lia.
    + cbn [combine fold_left pass_reads length].
      unfold accumulate at 2. cbn [fst snd].
      rewrite <- !app_assoc. cbn [app].
      replace (Z.of_nat (length (pa ++ [x]))) with (Z.of_nat (length pa) + 1)
        by (rewrite length_app; simpl; lia).
      reflexivity.
    + now rewrite <- app_assoc.
    + now rewrite <- app_assoc.
    + rewrite !length_app. simpl. lia.
Qed.

End Loop.

(** A call on sequences of one length returns the reduction, leaves both
    arrays unchanged and performs exactly the reads of one pass. *)
Lemma dot_cpp_run (a b : list F64.t) (log : list (buffer * Z)) :
  length a = length b ->
  dot_cpp (mkState a b log)
  = (Ret (dot_fold a b), mkState a b (log ++ pass_reads 0 (length a))).
Proof.
  intros Hlen.
  unfold dot_cpp, bind, request_size. cbn [contents arrA arrB].
  rewrite Hlen, Z.eqb_refl. cbn [negb].
  rewrite Nat2Z.id, <- Hlen.
  apply (for_loop_run a b a b [] [] (S (length a)) F64.zero log);
    auto with arith.
Qed.

(** A call on sequences of different lengths throws before any read. *)
Lemma dot_cpp_mismatch (a b : list F64.t) (log : list (buffer * Z)) :
  length a <> length b ->
  dot_cpp (mkState a b log) = (Throw LengthMismatch, mkState a b log).
Proof.
  intros Hlen.
  unfold dot_cpp, bind, request_size. cbn [contents arrA arrB].
  destruct (Z.eqb_spec (Z.of_nat (length a)) (Z.of_nat (length b))) as [E | _].
  - apply Nat2Z.inj in E. contradiction.
  - reflexivity.
Qed.

Lemma dot_equal_length (a b : list F64.t) :
  length a = length b -> dot a b = Ret (dot_fold a b).
Proof.
  intros H. unfold dot, call. now rewrite dot_cpp_run.
Qed.

Lemma dot_mismatch (a b : list F64.t) :
  length a <> length b -> dot a b = Throw LengthMismatch.
Proof.
  intros H. unfold dot, call. now rewrite dot_cpp_mismatch.
Qed.

(** ** The reduction, index by index *)

Lemma fold_partial_sum :
  forall (ra rb pa pb : list F64.t),
    length pa = length pb -> length ra = length rb ->
    fold_left accumulate (combine ra rb)
              (partial_sum (pa ++ ra) (pb ++ rb) (length pa))
    = partial_sum (pa ++ ra) (pb ++ rb) (length (pa ++ ra)).
Proof.
  induction ra as [| x ra IH]; intros rb pa pb Hp Hr.
  - destruct rb; [| discriminate]. now rewrite !app_nil_r.
  - destruct rb as [| y rb]; [discriminate |].
    injection Hr as Hr.
    cbn [combine fold_left].
    specialize (IH rb (pa ++ [x]) (pb ++ [y])).
    rewrite <- !app_assoc in IH. cbn [app] in IH.
    rewrite <- IH; [| rewrite !length_app; simpl; lia | exact Hr ].
    f_equal.
    rewrite length_app. cbn [length]. rewrite Nat.add_1_r.
    cbn [partial_sum]. unfold accumulate. cbn [fst snd].
    rewrite nth_middle.
    replace (nth (length pa) (pb ++ y :: rb) F64.nan) with y
      by (rewrite Hp; now rewrite nth_middle).
    reflexivity.
Qed.

Lemma dot_fold_partial_sum (a b : list F64.t) :
  length a = length b -> dot_fold a b = partial_sum a b (length a).
Proof.
  intros H. exact (fold_partial_sum a b [] [] eq_refl H).
Qed.

(** ** Reads of a pass *)

Lemma pass_reads_in (p : buffer) (j i : Z) (n : nat) :
  In (p, j) (pass_reads i n) -> i <= j < i + Z.of_nat n.
Proof.
  revert i. induction n as [| n IH]; intros i Hin; [destruct Hin |].
  cbn [pass_reads] in Hin.
  destruct Hin as [E | [E | Hin]].
  - injection E as _ E. lia.
  - injection E as _ E. lia.
  - apply IH in Hin. lia.
Qed.

Lemma index_in_range (l : list F64.t) (i : Z) :
  0 <= i < Z.of_nat (length l) -> exists x, index l i = Some x.
Proof.
  intros [H0 H1]. unfold index.
  destruct (Z.ltb_spec i 0) as [Hneg | _]; [lia |].
  destruct (nth_error l (Z.to_nat i)) as [x |] eqn:E; [now exists x |].
  apply nth_error_None in E. lia.
Qed.

(** The outcome of a call depends on the two arrays only. *)
Lemma dot_cpp_outcome (st : state) :
  fst (dot_cpp st) = dot (arrA st) (arrB st).
Proof.
  destruct st as [a b log]. cbn [arrA arrB]. unfold dot, call.
  destruct (Nat.eq_dec (length a) (length b)) as [E | N].
  - now rewrite !dot_cpp_run by exact E.
  - now rewrite !dot_cpp_mismatch by exact N.
Qed.

(** ** Builds and orders of the reads *)

Lemma load_operands_run (a b pa pb ra rb : list F64.t) (x y : F64.t)
      (o : order) (log : list (buffer * Z)) :
  a = pa ++ x :: ra -> b = pb ++ y :: rb -> length pa = length pb ->
  load_operands o (Z.of_nat (length pa)) (mkState a b log)
  = (Ret (x, y),
     mkState a b (log ++ match o with
                         | A_first => [(BufA, Z.of_nat (length pa));
                                       (BufB, Z.of_nat (length pa))]
                         | B_first => [(BufB, Z.of_nat (length pa));
                                       (BufA, Z.of_nat (length pa))]
                         end)).
Proof.
  intros Ha Hb Hp.
  assert (IA : index a (Z.of_nat (length pa)) = Some x)
    by (rewrite Ha; apply index_app_middle).
  assert (IB : index b (Z.of_nat (length pa)) = Some y)
    by (rewrite Hb, Hp; apply index_app_middle).
  destruct o; unfold load_operands, bind, load, ret;
    cbn [contents arrA arrB reads];
    repeat (first [rewrite IA | rewrite IB]; cbn [contents arrA arrB reads]);
    now rewrite <- app_assoc.
Qed.

Section Schedules.

Variables (fused : bool) (sched : Z -> order).
Variables a b : list F64.t.

(** Whatever the build and the order of the reads, the loop returns the
    reduction by the build's step and leaves the arrays as they were. *)
Lemma for_loop_as_run :
  forall (ra rb pa pb : list F64.t) (fuel : nat) (s : F64.t)
         (log : list (buffer * Z)),
    a = pa ++ ra -> b = pb ++ rb ->
    length pa = length pb -> length ra = length rb ->
    (length ra < fuel)%nat ->
    for_loop_as fused sched fuel (Z.of_nat (length a))
                (Z.of_nat (length pa)) s (mkState a b log)
    = (Ret (fold_left (accumulate_as fused) (combine ra rb) s),
       mkState a b
               (log ++ sched_reads sched (Z.of_nat (length pa)) (length ra))).
Proof.
  induction ra as [| x ra IH]; intros rb pa pb fuel s log Ha Hb Hp Hr Hf.
  - destruct rb; [| discriminate].
    destruct fuel as [| fuel]; [simpl in Hf; lia |].
    rewrite app_nil_r in Ha. subst pa.
    simpl. rewrite Z.ltb_irrefl. unfold ret. now rewrite app_nil_r.
  - destruct rb as [| y rb]; [discriminate |].
    destruct fuel as [| fuel]; [simpl in Hf; lia |].
    simpl in Hr, Hf. cbn [for_loop_as].
    assert (Hlt : (Z.of_nat (length pa) <? Z.of_nat (length a)) = true).
    { apply Z.ltb_lt. rewrite Ha, length_app. simpl. lia. }
    rewrite Hlt. unfold bind at 1.
    rewrite (load_operands_run a b pa pb ra rb x y _ log Ha Hb Hp).
    replace (Z.of_nat (length pa) + 1) with (Z.of_nat (length (pa ++ [x])))
      by (rewrite length_app; simpl; lia).
    rewrite (IH rb (pa ++ [x]) (pb ++ [y]) fuel); try lia.
    + cbn [combine fold_left sched_reads length].
      replace (Z.of_nat (length (pa ++ [x]))) with (Z.of_nat (length pa) + 1)
        by (rewrite length_app; simpl; lia).
      destruct (sched (Z.of_nat (length pa)));
        now rewrite <- !app_assoc.
    + now rewrite <- app_assoc.
    + now rewrite <- app_assoc.
    + rewrite !length_app. simpl. lia.
Qed.

End Schedules.

Lemma dot_cpp_as_run (fused : bool) (sched : Z -> order)
      (a b : list F64.t) (log : list (buffer * Z)) :
  length a = length b ->
  dot_cpp_as fused sched (mkState a b log)
  = (Ret (fold_left (accumulate_as fused) (combine a b) F64.zero),
     mkState a b (log ++ sched_reads sched 0 (length a))).
Proof.
  intros Hlen.
  unfold dot_cpp_as, bind, request_size. cbn [contents arrA arrB].
  rewrite Hlen, Z.eqb_refl. cbn [negb].
  rewrite Nat2Z.id, <- Hlen.
  apply (for_loop_as_run fused sched a b a b [] [] (S (length a)) F64.zero log);
    auto with arith.
Qed.

Lemma dot_cpp_as_mismatch (fused : bool) (sched : Z -> order)
      (a b : list F64.t) (log : list (buffer * Z)) :
  length a <> length b ->
  dot_cpp_as fused sched (mkState a b log)
  = (Throw LengthMismatch, mkState a b log).
Proof.
  intros Hlen.
  unfold dot_cpp_as, bind, request_size. cbn [contents arrA arrB].
  destruct (Z.eqb_spec (Z.of_nat (length a)) (Z.of_nat (length b))) as [E | _].
  - apply Nat2Z.inj in E. contradiction.
  - reflexivity.
Qed.

(** The outcome of a call of a build depends on the two arrays only. *)
Lemma dot_cpp_as_outcome (fused : bool) (sched : Z -> order) (st : state) :
  fst (dot_cpp_as fused sched st)
  = if Nat.eqb (length (arrA st)) (length (arrB st))
    then Ret (fold_left (accumulate_as fused)
                        (combine (arrA st) (arrB st)) F64.zero)
    else Throw LengthMismatch.
Proof.
  destruct st as [a b log]. cbn [arrA arrB].
  destruct (Nat.eqb_spec (length a) (length b)) as [E | N].
  - now rewrite dot_cpp_as_run.
  - now rewrite dot_cpp_as_mismatch.
Qed.

Lemma sched_reads_A_first (n : nat) (i : Z) :
  sched_reads (fun _ => A_first) i n = pass_reads i n.
Proof.
  revert i. induction n as [| n IH]; intros i; [reflexivity |].
  cbn [sched_reads pass_reads]. now rewrite IH.
Qed.

(** [dot_cpp] is the build that rounds the product before the sum, with
    buffer A read first in every iteration. *)
Lemma dot_cpp_as_default (st : state) :
  dot_cpp_as false (fun _ => A_first) st = dot_cpp st.
Proof.
  destruct st as [a b log].
  destruct (Nat.eq_dec (length a) (length b)) as [E | N].
  - rewrite dot_cpp_as_run, dot_cpp_run by exact E.
    now rewrite sched_reads_A_first.
  - now rewrite dot_cpp_as_mismatch, dot_cpp_mismatch.
Qed.

(** ** Facts of binary64 arithmetic *)

Lemma F64_mul_comm (x y : F64.t) : F64.mul x y = F64.mul y x.
Proof.
  destruct x as [sx | sx | | sx mx ex], y as [sy | sy | | sy my ey];
    cbn; try reflexivity; try (now rewrite xorb_comm).
  now rewrite xorb_comm, Pos.mul_comm, Z.add_comm.
Qed.

(** [x == x] fails for a NaN and for nothing else. *)
Lemma F64_eqb_refl_iff (x : F64.t) :
  F64.eqb x x = true <-> F64.is_nan x = false.
Proof.
  unfold F64.eqb, SFeqb.
  destruct x as [s | s | | s m e]; cbn.
  - tauto.
  - destruct s; tauto.
  - split; discriminate.
  - rewrite Z.compare_refl, Pcompare_refl. destruct s; cbn; tauto.
Qed.

(** A finite value times [+0.0] is a zero, and a zero added to [+0.0]
    leaves [+0.0]. *)
Lemma F64_accumulate_zero (x : F64.t) :
  F64.is_finite x = true ->
  F64.add F64.zero (F64.mul x F64.zero) = F64.zero.
Proof.
  destruct x as [s | s | | s m e]; cbn; try discriminate; intros _;
    now destruct s.
Qed.

Lemma dot_fold_comm (a b : list F64.t) : dot_fold a b = dot_fold b a.
Proof.
  unfold dot_fold. generalize F64.zero as s.
  revert b. induction a as [| x a IH]; intros [| y b] s; try reflexivity.
  cbn [combine fold_left]. unfold accumulate at 2 4. cbn [fst snd].
  now rewrite F64_mul_comm, IH.
Qed.

Lemma dot_fold_zeros (a : list F64.t) :
  forallb F64.is_finite a = true -> dot_fold a (zeros_like a) = F64.zero.
Proof.
  unfold dot_fold.
  induction a as [| x a IH]; intros H; [reflexivity |].
  cbn [forallb] in H. apply andb_prop in H as [Hx Ha].
  cbn [zeros_like map combine fold_left]. unfold accumulate at 2.
  cbn [fst snd]. rewrite F64_accumulate_zero by exact Hx.
  now apply IH.
Qed.

(** ** Exact arithmetic on integers below [2^53] *)

Lemma pshl_Z p n : Zpos (pshl p n) = Zpos p * 2 ^ Z.of_nat n.
Proof.
  induction n as [| n IH].
  - cbn. lia.
  - unfold pshl in *. rewrite Nat.iter_succ, Pos2Z.inj_xO, IH.
    rewrite Nat2Z.inj_succ, Z.pow_succ_r by lia. lia.
Qed.

Lemma pshl_add p n k : pshl (pshl p n) k = pshl p (k + n).
Proof. unfold pshl. now rewrite Nat.iter_add. Qed.

Lemma pshl_iter p q : Pos.iter xO p q = pshl p (Pos.to_nat q).
Proof. unfold pshl, Nat.iter. apply Pos2Nat.inj_iter. Qed.

Lemma digits_pshl p n : digits (pshl p n) = digits p + Z.of_nat n.
Proof.
  unfold digits. induction n as [| n IH].
  - cbn. lia.
  - unfold pshl in *. rewrite Nat.iter_succ. cbn [digits2_pos].
    rewrite Pos2Z.inj_succ, IH. lia.
Qed.

Lemma digits_pos p : 1 <= digits p.
Proof. unfold digits. lia. Qed.

Lemma digits_bounds p : 2 ^ (digits p - 1) <= Zpos p < 2 ^ digits p.
Proof.
  unfold digits. induction p as [p IH | p IH |]; cbn [digits2_pos].
  - rewrite Pos2Z.inj_succ, (Pos2Z.inj_xI p).
    replace (Z.succ (Zpos (digits2_pos p)) - 1) with (Z.succ (Zpos (digits2_pos p) - 1)) by lia.
    rewrite !Z.pow_succ_r by lia. lia.
  - rewrite Pos2Z.inj_succ, (Pos2Z.inj_xO p).
    replace (Z.succ (Zpos (digits2_pos p)) - 1) with (Z.succ (Zpos (digits2_pos p) - 1)) by lia.
    rewrite !Z.pow_succ_r by lia. lia.
  - cbn. lia.
Qed.

Lemma digits_le p k : 0 <= k -> Zpos p < 2 ^ k -> digits p <= k.
Proof.
  intros Hk H. destruct (Z.le_gt_cases (digits p) k) as [L | G]; [exact L |].
  pose proof (digits_bounds p) as [B _].
  assert (2 ^ k <= 2 ^ (digits p - 1)) by (apply Z.pow_le_mono_r; lia).
  lia.
Qed.

Lemma digits_ge p k : 2 ^ k <= Zpos p -> k < digits p.
Proof.
  intros H. destruct (Z.lt_ge_cases k (digits p)) as [L | G]; [exact L |].
  pose proof (digits_bounds p) as [_ B].
  assert (2 ^ digits p <= 2 ^ k) by (apply Z.pow_le_mono_r; lia).
  lia.
Qed.

Lemma iter_pos_nat {A} (f : A -> A) q x :
  iter_pos f q x = Nat.iter (Pos.to_nat q) f x.
Proof.
  revert x. induction q as [q IH | q IH |]; intros x; cbn [iter_pos].
  - rewrite !IH, Pos2Nat.inj_xI, <- Nat.iter_add, <- Nat.iter_succ_r.
    f_equal. lia.
  - rewrite !IH, Pos2Nat.inj_xO, <- Nat.iter_add. f_equal. lia.
  - reflexivity.
Qed.

Lemma shr_1_iter p n : Nat.iter n shr_1 (exact (pshl p n)) = exact p.
Proof.
  revert p. induction n as [| n IH]; intros p; [reflexivity |].
  rewrite Nat.iter_succ_r.
  unfold pshl. rewrite Nat.iter_succ. cbn [exact shr_1 orb].
  apply IH.
Qed.

Lemma shr_exact p n k e :
  shr (exact (pshl p (k + n))) e (Z.of_nat k) = (exact (pshl p n), e + Z.of_nat k).
Proof.
  destruct k as [| k].
  - cbn [Z.of_nat shr Nat.add]. now rewrite Z.add_0_r.
  - unfold shr. rewrite <- pshl_add.
    change (Z.of_nat (S k)) with (Zpos (Pos.of_succ_nat k)).
    cbv iota. rewrite iter_pos_nat, SuccNat2Pos.id_succ.
    now rewrite shr_1_iter.
Qed.

Lemma fexp_val (x : Z) :
  fexp F64.prec F64.emax x = Z.max (x - 53) (-1074).
Proof. reflexivity. Qed.

Lemma shr_fexp_exact p n e :
  let k := Z.to_nat (Z.max (digits p + Z.of_nat n + e - 53) (-1074) - e) in
  (k <= n)%nat ->
  shr_fexp F64.prec F64.emax (Zpos (pshl p n)) e loc_Exact
  = (exact (pshl p (n - k)), e + Z.of_nat k).
Proof.
  intros k Hk. unfold shr_fexp. cbn [shr_record_of_loc Zdigits2].
  change (Zpos (digits2_pos (pshl p n))) with (digits (pshl p n)).
  rewrite digits_pshl, fexp_val.
  destruct (Z.max (digits p + Z.of_nat n + e - 53) (-1074) - e) as [| q | q] eqn:E.
  - subst k. cbn. now rewrite Nat.sub_0_r, Z.add_0_r.
  - rewrite <- (Z2Nat.id (Zpos q)) by lia. fold k.
    replace n with (k + (n - k))%nat at 1 by lia.
    apply shr_exact.
  - subst k. cbn. now rewrite Nat.sub_0_r, Z.add_0_r.
Qed.

Lemma binary_round_aux_exact s p n e :
  digits p <= 53 -> 53 <= digits p + Z.of_nat n ->
  -1074 <= e + Z.of_nat n + digits p - 53 <= 971 ->
  binary_round_aux F64.prec F64.emax s (Zpos (pshl p n)) e loc_Exact
  = canon s p (e + Z.of_nat n).
Proof.
  intros Hd Hn He. pose proof (digits_pos p) as Hp.
  unfold binary_round_aux.
  rewrite shr_fexp_exact by lia.
  cbn [exact shr_m loc_of_shr_record round_nearest_even].
  rewrite shr_fexp_exact by lia.
  cbn [exact shr_m].
  match goal with |- (if ?c then _ else _) = _ => replace c with true end.
  - unfold canon. f_equal; [f_equal |]; lia.
  - symmetry. apply Z.leb_le. unfold F64.emax, F64.prec. lia.
Qed.

Lemma binary_round_exact s p n e :
  digits p <= 53 ->
  -1074 <= e + Z.of_nat n + digits p - 53 <= 971 ->
  binary_round F64.prec F64.emax s (pshl p n) e = canon s p (e + Z.of_nat n).
Proof.
  intros Hd He. pose proof (digits_pos p) as Hp.
  unfold binary_round, shl_align.
  change (Zpos (digits2_pos (pshl p n))) with (digits (pshl p n)).
  rewrite digits_pshl, fexp_val.
  destruct (Z.max (digits p + Z.of_nat n + e - 53) (-1074) - e) as [| q | q] eqn:E.
  - rewrite binary_round_aux_exact; trivial. lia.
  - rewrite binary_round_aux_exact; trivial. lia.
  - rewrite pshl_iter, pshl_add.
    rewrite binary_round_aux_exact; trivial; try lia.
    f_equal. lia.
Qed.

Lemma small_digits p : small (Zpos p) -> digits p <= 53.
Proof. intros H. apply digits_le; [lia | exact H]. Qed.

Lemma of_Z_pos p : digits p <= 53 -> F64.of_Z (Zpos p) = canon false p 0.
Proof.
  intros H. pose proof (digits_pos p).
  exact (binary_round_exact false p 0 0 H ltac:(cbn [Z.of_nat]; lia)).
Qed.

Lemma of_Z_neg p : digits p <= 53 -> F64.of_Z (Zneg p) = canon true p 0.
Proof.
  intros H. pose proof (digits_pos p).
  exact (binary_round_exact true p 0 0 H ltac:(cbn [Z.of_nat]; lia)).
Qed.

(** Rounding [n * 2^k] at exponent [-k] gives the double of [n]. *)
Lemma normalize_scaled (n : Z) (k : nat) :
  small n ->
  binary_normalize F64.prec F64.emax (n * 2 ^ Z.of_nat k) (- Z.of_nat k) false
  = F64.of_Z n.
Proof.
  intros H. destruct n as [| p | p].
  - reflexivity.
  - pose proof (small_digits p H) as Hd. pose proof (digits_pos p).
    rewrite <- pshl_Z, of_Z_pos by exact Hd. cbn [binary_normalize].
    rewrite binary_round_exact by (trivial; lia).
    f_equal. lia.
  - pose proof (small_digits p H) as Hd. pose proof (digits_pos p).
    change (Zneg p) with (- Zpos p) at 1.
    rewrite Z.mul_opp_l, <- pshl_Z, of_Z_neg by exact Hd.
    cbn [Z.opp binary_normalize].
    rewrite binary_round_exact by (trivial; lia).
    f_equal. lia.
Qed.

Lemma shl_align_value (m : positive) (e e' : Z) :
  e' <= e -> Zpos (fst (shl_align m e e')) = Zpos m * 2 ^ (e - e').
Proof.
  intros H. unfold shl_align.
  destruct (e' - e) as [| q | q] eqn:E; cbn [fst].
  - replace (e - e') with 0 by lia. cbn. lia.
  - lia.
  - rewrite pshl_iter, pshl_Z, positive_nat_Z. f_equal. f_equal. lia.
Qed.

Lemma of_Z_signed (s : bool) (p : positive) :
  digits p <= 53 -> F64.of_Z (signed s p) = canon s p 0.
Proof. destruct s; [apply of_Z_neg | apply of_Z_pos]. Qed.

Lemma add_canon (sx sy : bool) (px py : positive) :
  digits px <= 53 -> digits py <= 53 ->
  small (signed sx px + signed sy py) ->
  F64.add (canon sx px 0) (canon sy py 0)
  = F64.of_Z (signed sx px + signed sy py).
Proof.
  intros Hx Hy Hs.
  pose proof (digits_pos px). pose proof (digits_pos py).
  unfold canon, F64.add, SFadd.
  set (ex := 0 + digits px - 53). set (ey := 0 + digits py - 53).
  set (k := Z.to_nat (- Z.min ex ey)).
  rewrite !shl_align_value by lia.
  rewrite !pshl_Z.
  replace (Z.min ex ey) with (- Z.of_nat k) by (subst k ex ey; lia).
  rewrite <- (normalize_scaled _ k Hs).
  f_equal.
  rewrite Z.mul_add_distr_r. unfold signed.
  assert (E : forall p : positive, digits p <= 53 -> 
            Zpos p * 2 ^ Z.of_nat (Z.to_nat (53 - digits p))
              * 2 ^ (0 + digits p - 53 - - Z.of_nat k) = Zpos p * 2 ^ Z.of_nat k \/ Z.of_nat k < 53 - digits p).
  { intros p Hp. destruct (Z.lt_ge_cases (Z.of_nat k) (53 - digits p)); [now right | left].
    rewrite <- Z.mul_assoc, <- Z.pow_add_r by lia. f_equal. f_equal. lia. }
  unfold ex at 1, ey at 1.
  destruct (E px Hx) as [-> | ?]; [| subst k ex ey; lia].
  destruct (E py Hy) as [-> | ?]; [| subst k ex ey; lia].
  destruct sx, sy; cbn [cond_Zopp]; lia.
Qed.

Lemma add_exact (x y : Z) :
  small x -> small y -> small (x + y) ->
  F64.add (F64.of_Z x) (F64.of_Z y) = F64.of_Z (x + y).
Proof.
  intros Hx Hy Hs.
  destruct x as [| px | px].
  - rewrite Z.add_0_l.
    destruct y as [| py | py]; [reflexivity | |];
      [rewrite of_Z_pos | rewrite of_Z_neg]; try reflexivity;
      now apply small_digits.
  - pose proof (small_digits px Hx) as Dx.
    destruct y as [| py | py].
    + rewrite Z.add_0_r, of_Z_pos by exact Dx. reflexivity.
    + pose proof (small_digits py Hy) as Dy.
      rewrite (of_Z_pos px), (of_Z_pos py) by assumption.
      exact (add_canon false false px py Dx Dy Hs).
    + pose proof (small_digits py Hy) as Dy.
      rewrite (of_Z_pos px), (of_Z_neg py) by assumption.
      exact (add_canon false true px py Dx Dy Hs).
  - pose proof (small_digits px Hx) as Dx.
    destruct y as [| py | py].
    + rewrite Z.add_0_r, of_Z_neg by exact Dx. reflexivity.
    + pose proof (small_digits py Hy) as Dy.
      rewrite (of_Z_neg px), (of_Z_pos py) by assumption.
      exact (add_canon true false px py Dx Dy Hs).
    + pose proof (small_digits py Hy) as Dy.
      rewrite (of_Z_neg px), (of_Z_neg py) by assumption.
      exact (add_canon true true px py Dx Dy Hs).
Qed.

Lemma pshl_mul (p q : positive) (n k : nat) :
  (pshl p n * pshl q k)%positive = pshl (p * q) (n + k).
Proof.
  apply Pos2Z.inj. rewrite Pos2Z.inj_mul, !pshl_Z, Pos2Z.inj_mul.
  rewrite Nat2Z.inj_add, Z.pow_add_r by lia. ring.
Qed.

Lemma digits_mul_ge (p q : positive) :
  digits p + digits q - 1 <= digits (p * q).
Proof.
  pose proof (digits_bounds p) as [Bp _].
  pose proof (digits_bounds q) as [Bq _].
  pose proof (digits_pos p). pose proof (digits_pos q).
  assert (2 ^ (digits p + digits q - 2) <= Zpos (p * q)).
  { replace (digits p + digits q - 2) with ((digits p - 1) + (digits q - 1)) by lia.
    rewrite Z.pow_add_r, Pos2Z.inj_mul by lia.
    apply Z.mul_le_mono_nonneg; trivial; apply Z.pow_nonneg; lia. }
  apply digits_ge in H1. lia.
Qed.

Lemma mul_canon (sx sy : bool) (px py : positive) :
  digits px <= 53 -> digits py <= 53 -> digits (px * py) <= 53 ->
  F64.mul (canon sx px 0) (canon sy py 0) = canon (xorb sx sy) (px * py) 0.
Proof.
  intros Hx Hy Hxy.
  pose proof (digits_pos px). pose proof (digits_pos py).
  pose proof (digits_pos (px * py)). pose proof (digits_mul_ge px py).
  unfold canon at 1 2, F64.mul, SFmul.
  rewrite pshl_mul, binary_round_aux_exact by (trivial; lia).
  f_equal. lia.
Qed.

Lemma signed_mul sx sy px py :
  signed sx px * signed sy py = signed (xorb sx sy) (px * py).
Proof. destruct sx, sy; cbn; lia. Qed.

Lemma signed_abs s p : Z.abs (signed s p) = Zpos p.
Proof. now destruct s. Qed.

(** Every non-zero integer is a sign and a magnitude. *)
Lemma signed_cases (z : Z) : z = 0 \/ exists s p, z = signed s p.
Proof.
  destruct z as [| p | p]; [now left | right | right].
  - now exists false, p.
  - now exists true, p.
Qed.

(** One step of the loop on integer values: [s + x * y] is exact. *)
Lemma accumulate_exact (n x y : Z) :
  small n -> small x -> small y -> small (x * y) -> small (n + x * y) ->
  accumulate (F64.of_Z n) (F64.of_Z x, F64.of_Z y) = F64.of_Z (n + x * y).
Proof.
  intros Hn Hx Hy Hxy Hs. unfold accumulate. cbn [fst snd].
  assert (Z0 : forall s, F64.add (F64.of_Z n) (S754_zero s) = F64.of_Z n).
  { intros s. destruct (signed_cases n) as [-> | (sn & pn & ->)].
    - now destruct s.
    - rewrite of_Z_signed; [reflexivity |].
      apply small_digits. unfold small in *. now rewrite signed_abs in Hn. }
  destruct (signed_cases x) as [-> | (sx & px & ->)].
  - rewrite Z.mul_0_l, Z.add_0_r.
    destruct (signed_cases y) as [-> | (sy & py & ->)]; [apply (Z0 false) |].
    rewrite (of_Z_signed sy py); [apply Z0 |].
    apply small_digits. unfold small in *. now rewrite signed_abs in Hy.
  - assert (Dx : digits px <= 53).
    { apply small_digits. unfold small in *. now rewrite signed_abs in Hx. }
    rewrite (of_Z_signed sx px Dx).
    destruct (signed_cases y) as [-> | (sy & py & ->)].
    + rewrite Z.mul_0_r, Z.add_0_r. apply Z0.
    + assert (Dy : digits py <= 53).
      { apply small_digits. unfold small in *. now rewrite signed_abs in Hy. }
      rewrite signed_mul in *.
      assert (Dxy : digits (px * py) <= 53).
      { apply small_digits. unfold small in *. now rewrite signed_abs in Hxy. }
      rewrite (of_Z_signed sy py Dy), mul_canon, <- of_Z_signed by assumption.
      now apply add_exact.
Qed.

Lemma mass_nonneg za zb : 0 <= mass za zb.
Proof.
  revert zb. induction za as [| x za IH]; intros [| y zb]; cbn; try lia.
  specialize (IH zb). nia.
Qed.

Lemma zdot_le_mass za zb : Z.abs (zdot za zb) <= mass za zb.
Proof.
  revert zb. induction za as [| x za IH]; intros [| y zb]; cbn [zdot mass]; try (cbn; lia).
  specialize (IH zb). rewrite <- Z.abs_mul. lia.
Qed.

Lemma fold_ints (za zb : list Z) :
  forall n : Z,
    Forall small za -> Forall small zb ->
    Z.abs n + mass za zb < 2 ^ 53 ->
    fold_left accumulate (combine (ints za) (ints zb)) (F64.of_Z n)
    = F64.of_Z (n + zdot za zb).
Proof.
  revert zb. induction za as [| x za IH]; intros [| y zb] n Ha Hb Hm;
    cbn [ints map combine fold_left zdot]; try (now rewrite Z.add_0_r).
  inversion Ha as [| ? ? Hx Ha']; subst. inversion Hb as [| ? ? Hy Hb']; subst.
  cbn [mass] in Hm.
  pose proof (mass_nonneg za zb) as M0.
  assert (Hxy : Z.abs (x * y) = Z.abs x * Z.abs y) by apply Z.abs_mul.
  rewrite accumulate_exact; unfold small in *; try lia.
  fold (ints za) (ints zb).
  rewrite IH; trivial; [f_equal; lia | lia].
Qed.

Lemma vec_add_ints (zb zc : list Z) :
  Forall sum_small (combine zb zc) ->
  vec_add (ints zb) (ints zc) = ints (zvec_add zb zc).
Proof.
  revert zc. induction zb as [| y zb IH]; intros [| z zc] H; try reflexivity.
  cbn [combine] in H. inversion H as [| ? ? Hyz H']; subst.
  cbn [ints map vec_add zvec_add]. fold (ints zb) (ints zc).
  unfold sum_small in Hyz. cbn [fst snd] in Hyz.
  rewrite add_exact by (unfold small; lia).
  now rewrite IH.
Qed.

Lemma sum_small_each (zb zc : list Z) :
  length zb = length zc ->
  Forall sum_small (combine zb zc) ->
  Forall small zb /\ Forall small zc /\ Forall small (zvec_add zb zc).
Proof.
  revert zc. induction zb as [| y zb IH]; intros [| z zc] L H; try discriminate.
  - repeat split; constructor.
  - cbn [combine] in H. inversion H as [| ? ? Hyz H']; subst.
    injection L as L. destruct (IH zc L H') as (Hb & Hc & Hbc).
    unfold sum_small in Hyz. cbn [fst snd] in Hyz.
    repeat split; constructor; trivial; unfold small; lia.
Qed.

Lemma zdot_linear (za zb zc : list Z) :
  length za = length zb -> length zb = length zc ->
  zdot za (zvec_add zb zc) = zdot za zb + zdot za zc /\
  mass za (zvec_add zb zc) <= mass za zb + mass za zc.
Proof.
  revert zb zc. induction za as [| x za IH]; intros [| y zb] [| z zc] L1 L2;
    try discriminate; [cbn; lia |].
  injection L1 as L1. injection L2 as L2.
  destruct (IH zb zc L1 L2) as [E M].
  cbn [zdot mass zvec_add]. rewrite E. split; [ring |].
  pose proof (Z.abs_triangle y z). pose proof (Z.abs_nonneg x). nia.
Qed.

Lemma length_zvec_add (zb zc : list Z) :
  length zb = length zc -> length (zvec_add zb zc) = length zb.
Proof.
  revert zc. induction zb as [| y zb IH]; intros [| z zc] L;
    try discriminate; [reflexivity |].
  injection L as L. cbn [zvec_add length]. now rewrite IH.
Qed.

Lemma of_Z_not_nan (n : Z) : small n -> F64.is_nan (F64.of_Z n) = false.
Proof.
  intros H. destruct (signed_cases n) as [-> | (s & p & ->)]; [reflexivity |].
  rewrite of_Z_signed; [reflexivity |].
  apply small_digits. unfold small in *. now rewrite signed_abs in H.
Qed.

(** The dot product of two integer sequences is computed without any
    rounding when the sum of the [|x_i| * |y_i|] stays below [2^53]. *)
Lemma dot_ints (za zb : list Z) :
  length za = length zb ->
  Forall small za -> Forall small zb -> mass za zb < 2 ^ 53 ->
  dot (ints za) (ints zb) = Ret (F64.of_Z (zdot za zb)).
Proof.
  intros L Ha Hb Hm.
  rewrite dot_equal_length by (unfold ints; now rewrite !length_map).
  unfold dot_fold. change F64.zero with (F64.of_Z 0).
  now rewrite fold_ints by (trivial; cbn [Z.abs]; lia).
Qed.

Lemma forallb_Forall {A} (f : A -> bool) (P : A -> Prop) (l : list A) :
  (forall x, f x = true -> P x) -> forallb f l = true -> Forall P l.
Proof.
  intros HfP H. apply Forall_forall. intros x Hx. apply HfP.
  revert x Hx. now apply forallb_forall.
Qed.

(** Where nothing is rounded the identity is exact: for sequences [a],
    [b], [c] of one length that hold integers with [|a_i| < 2^53],
    [|b_i| + |c_i| < 2^53] and the sum of the [|a_i| * (|b_i| + |c_i|)]
    below [2^53], the three calls return and [dot(a, b+c)] is exactly
    [dot(a, b) + dot(a, c)]. *)
Lemma dot_linear_exact_on_integers (za zb zc : list Z) :
  length za = length zb -> length zb = length zc ->
  forallb smallb za = true ->
  forallb sum_smallb (combine zb zc) = true ->
  mass za zb + mass za zc < 2 ^ 53 ->
  exists l r1 r2 : F64.t,
    dot (ints za) (vec_add (ints zb) (ints zc)) = Ret l /\
    dot (ints za) (ints zb) = Ret r1 /\
    dot (ints za) (ints zc) = Ret r2 /\
    l = F64.add r1 r2 /\
    F64.eqb l (F64.add r1 r2) = true.
Proof.
  intros L1 L2 Ha Hbc Hm.
  apply (forallb_Forall smallb small) in Ha;
    [| intros x Hx; now apply Z.ltb_lt].
  apply (forallb_Forall sum_smallb sum_small) in Hbc;
    [| intros x Hx; now apply Z.ltb_lt].
  destruct (sum_small_each zb zc L2 Hbc) as (Hb & Hc & Hs).
  destruct (zdot_linear za zb zc L1 L2) as [E M].
  pose proof (mass_nonneg za zb) as Mb.
  pose proof (mass_nonneg za zc) as Mc.
  pose proof (zdot_le_mass za zb) as Zb.
  pose proof (zdot_le_mass za zc) as Zc.
  exists (F64.of_Z (zdot za zb + zdot za zc)),
         (F64.of_Z (zdot za zb)), (F64.of_Z (zdot za zc)).
  assert (A : F64.add (F64.of_Z (zdot za zb)) (F64.of_Z (zdot za zc))
              = F64.of_Z (zdot za zb + zdot za zc))
    by (apply add_exact; unfold small; lia).
  repeat split.
  - rewrite (vec_add_ints zb zc Hbc), <- E.
    apply dot_ints; trivial; [| lia].
    now rewrite length_zvec_add, L1.
  - apply dot_ints; trivial; lia.
  - apply dot_ints; trivial; [congruence | lia].
  - now rewrite A.
  - rewrite A. apply F64_eqb_refl_iff, of_Z_not_nan. unfold small. lia.
Qed.

(** ** Shifts and rounding to nearest *)

Lemma shifted_0 (m : Z) :
  0 <= m -> shifted m 0 (Build_shr_record m false false).
Proof.
  intros H. split; [exact H |]. exists 0. cbn [shr_m shr_r shr_s Z.b2z].
  repeat split; try lia.
Qed.

Lemma shifted_step (m n : Z) (r : shr_record) :
  0 <= n -> shifted m n r -> shifted m (n + 1) (shr_1 r).
Proof.
  intros Hn (Hm & t & E & Ht & Hs).
  destruct r as [m' rb sb]. cbn [shr_m shr_r shr_s] in *.
  assert (P : 0 < 2 ^ n) by (apply Z.pow_pos_nonneg; lia).
  assert (P1 : 2 ^ (n + 1) = 2 * 2 ^ n) by (rewrite Z.pow_add_r; lia).
  assert (P2 : 2 ^ (n + 1 + 1) = 4 * 2 ^ n) by (rewrite !Z.pow_add_r; lia).
  assert (Hor : (Z.b2z rb * 2 ^ n + t = 0) <-> (rb || sb)%bool = false).
  { destruct rb; cbn [Z.b2z orb].
    - split; [intros; exfalso; lia | discriminate].
    - rewrite <- Hs. lia. }
  destruct m' as [| [p | p |] | p]; unfold shifted;
    cbn [shr_1 shr_m shr_r shr_s orb]; try lia.
  all: split; [lia |]; exists (Z.b2z rb * 2 ^ n + t);
    cbn [shr_m shr_r shr_s Z.b2z];
    split; [lia |]; split; [destruct rb; cbn [Z.b2z]; lia | exact Hor].
Qed.

Lemma shifted_iter (m : Z) (k : nat) :
  0 <= m ->
  shifted m (Z.of_nat k) (Nat.iter k shr_1 (Build_shr_record m false false)).
Proof.
  intros H. induction k as [| k IH].
  - now apply shifted_0.
  - rewrite Nat.iter_succ, Nat2Z.inj_succ. unfold Z.succ.
    apply shifted_step; [lia | exact IH].
Qed.

(** Rounding to nearest after a shift by [q > 0] is off by at most half a
    unit. *)
Lemma round_after_shift (m q : Z) (r : shr_record) :
  0 < q -> shifted m q r ->
  let m2 := round_nearest_even (shr_m r) (loc_of_shr_record r) in
  shr_m r <= m2 <= shr_m r + 1 /\ 2 * Z.abs (m2 * 2 ^ q - m) <= 2 ^ q.
Proof.
  intros Hq (Hm & t & E & Ht & Hs).
  destruct r as [m1 rb sb]. cbn [shr_m shr_r shr_s] in *.
  assert (P : 0 < 2 ^ q) by (apply Z.pow_pos_nonneg; lia).
  assert (P1 : 2 ^ (q + 1) = 2 * 2 ^ q) by (rewrite Z.pow_add_r; lia).
  rewrite P1 in E.
  destruct rb, sb; cbn [loc_of_shr_record round_nearest_even Z.b2z] in *.
  - split; [lia |]. nia.
  - destruct (Z.even m1); (split; [lia |]).
    + assert (t = 0) by (now apply Hs). nia.
    + assert (t = 0) by (now apply Hs). nia.
  - split; [lia |]. nia.
  - split; [lia |]. assert (t = 0) by (now apply Hs). nia.
Qed.

Lemma binary_round_aux_pair (s : bool) (m e : Z) :
  binary_round_aux F64.prec F64.emax s m e loc_Exact
  = match fst (round_pair m e) with
    | Z0 => S754_zero s
    | Zpos p =>
        if snd (round_pair m e) <=? 971 then S754_finite s p (snd (round_pair m e))
        else S754_infinity s
    | Zneg _ => S754_nan
    end.
Proof.
  unfold binary_round_aux, round_pair.
  destruct (shr_fexp F64.prec F64.emax m e loc_Exact) as [r1 e1].
  destruct (shr_fexp F64.prec F64.emax _ e1 loc_Exact) as [r2 e2].
  reflexivity.
Qed.

Lemma Zdigits2_le (m d : Z) :
  0 <= d -> 0 <= m <= 2 ^ d -> Zdigits2 m <= d + 1.
Proof.
  intros Hd [H0 H1]. destruct m as [| p | p]; cbn [Zdigits2]; try lia.
  change (Zpos (digits2_pos p)) with (digits p).
  apply digits_le; [lia |]. rewrite Z.pow_add_r by lia. lia.
Qed.

Lemma shr_exact_record (m e q : Z) :
  q <= 0 ->
  shr (Build_shr_record m false false) e q = (Build_shr_record m false false, e).
Proof. intros H. destruct q; try reflexivity. lia. Qed.

Lemma round_pair_spec (p : positive) (e q : Z) :
  q = Z.max (digits p + e - 53) (-1074) - e ->
  (q <= 0 -> round_pair (Zpos p) e = (Zpos p, e)) /\
  (0 < q ->
   exists m3 k : Z,
     round_pair (Zpos p) e = (m3, e + k) /\ 0 <= m3 /\ q <= k /\
     2 * Z.abs (m3 * 2 ^ k - Zpos p) <= 2 ^ q).
Proof.
  intros Eq. unfold round_pair, shr_fexp.
  cbn [shr_record_of_loc Zdigits2].
  change (Zpos (digits2_pos p)) with (digits p).
  rewrite fexp_val, <- Eq.
  pose proof (digits_pos p) as Dp.
  pose proof (digits_bounds p) as [Bl Bu].
  split; intros Hq.
  - rewrite shr_exact_record by exact Hq.
    cbn [shr_m loc_of_shr_record round_nearest_even Zdigits2].
    change (Zpos (digits2_pos p)) with (digits p).
    rewrite fexp_val, <- Eq.
    now rewrite shr_exact_record by exact Hq.
  - assert (Hq' : q = Z.of_nat (Z.to_nat q)) by lia.
    destruct q as [| qp | qp]; try lia.
    cbn [shr]. rewrite iter_pos_nat.
    pose proof (shifted_iter (Zpos p) (Pos.to_nat qp) ltac:(lia)) as Sh.
    rewrite positive_nat_Z in Sh.
    set (r1 := Nat.iter (Pos.to_nat qp) shr_1 (Build_shr_record (Zpos p) false false)) in *.
    destruct (round_after_shift (Zpos p) (Zpos qp) r1 ltac:(lia) Sh) as [Hm2 Herr].
    cbv zeta in Hm2, Herr.
    set (m2 := round_nearest_even (shr_m r1) (loc_of_shr_record r1)) in *.
    destruct Sh as (Hm1 & t & E & Ht & _).
    set (D := Z.max (digits p - Zpos qp) 0).
    assert (P : 0 < 2 ^ Zpos qp) by (apply Z.pow_pos_nonneg; lia).
    assert (HD : shr_m r1 < 2 ^ D).
    { rewrite Z.pow_add_r in E by lia.
      assert (shr_m r1 * 2 ^ Zpos qp <= Zpos p) by (destruct (shr_r r1); cbn [Z.b2z] in E; nia).
      destruct (Z.le_gt_cases (Zpos qp) (digits p)) as [L | G].
      - replace D with (digits p - Zpos qp) by lia.
        assert (2 ^ digits p = 2 ^ (digits p - Zpos qp) * 2 ^ Zpos qp)
          by (rewrite <- Z.pow_add_r by lia; f_equal; lia).
        nia.
      - replace D with 0 by lia.
        assert (2 ^ digits p <= 2 ^ Zpos qp) by (apply Z.pow_le_mono_r; lia).
        change (2 ^ 0) with 1. nia. }
    assert (D53 : 0 <= D <= 53).
    { lia. }
    assert (Emin : -1074 <= e + Zpos qp) by lia.
    assert (Hd2 : Zdigits2 m2 <= D + 1) by (apply Zdigits2_le; lia).
    rewrite fexp_val.
    set (q2 := Z.max (Zdigits2 m2 + (e + Zpos qp) - 53) (-1074) - (e + Zpos qp)).
    assert (Hq2 : q2 <= 1) by (subst q2; lia).
    destruct (Z.le_gt_cases q2 0) as [L | G].
    + rewrite shr_exact_record by exact L. cbn [shr_m].
      exists m2, (Zpos qp). repeat split; lia.
    + assert (q2 = 1) by lia.
      assert (Zdigits2 m2 = 54).
      { subst q2. lia. }
      assert (m2 = 2 ^ 53).
      { assert (D = 53) by lia.
        destruct m2 as [| p2 | p2] eqn:E2; cbn [Zdigits2] in H0; try lia.
        change (Zpos (digits2_pos p2)) with (digits p2) in H0.
        pose proof (digits_bounds p2) as [B2 _]. rewrite H0 in B2.
        rewrite H1 in HD. change (54 - 1) with 53 in B2. lia. }
      rewrite H, H1. cbn [shr iter_pos]. 
      exists (2 ^ 52), (Zpos qp + 1). 
      split; [f_equal; first [lia | vm_compute; reflexivity] |].
      split; [lia |]. split; [lia |].
      rewrite H1 in Herr.
      replace (2 ^ 52 * 2 ^ (Zpos qp + 1)) with (2 ^ 53 * 2 ^ Zpos qp); [exact Herr |].
      rewrite Z.pow_add_r by lia. lia.
Qed.

(** ** Doubles as real numbers *)

Lemma bpow_pos (e : Z) : (0 < bpow e)%R.
Proof. apply powerRZ_lt. lra. Qed.

Lemma bpow_add (a b : Z) : bpow (a + b) = (bpow a * bpow b)%R.
Proof. apply powerRZ_add. lra. Qed.

Lemma IZR_pow2 (k : Z) : 0 <= k -> IZR (2 ^ k) = bpow k.
Proof.
  intros H. unfold bpow.
  rewrite <- (Z2Nat.id k H), <- pow_IZR. now rewrite <- pow_powerRZ.
Qed.

Lemma bpow_le (a b : Z) : a <= b -> (bpow a <= bpow b)%R.
Proof.
  intros H. replace b with (a + (b - a)) by lia.
  rewrite bpow_add, <- (IZR_pow2 (b - a)) by lia.
  assert (1 <= 2 ^ (b - a)) by (apply (Z.pow_le_mono_r 2 0); lia).
  apply IZR_le in H0. pose proof (bpow_pos a). nra.
Qed.

Lemma IZR_cond_Zopp (s : bool) (m : Z) :
  IZR (cond_Zopp s m) = (if s then - IZR m else IZR m)%R.
Proof. destruct s; cbn [cond_Zopp]; [apply opp_IZR | reflexivity]. Qed.

Lemma sval_diff (s : bool) (m m' e e' : Z) :
  Rabs (sval s m e - sval s m' e')
  = Rabs (IZR m * bpow e - IZR m' * bpow e').
Proof.
  unfold sval. rewrite !IZR_cond_Zopp. destruct s; [| reflexivity].
  replace (- IZR m * bpow e - - IZR m' * bpow e')%R
    with (- (IZR m * bpow e - IZR m' * bpow e'))%R by ring.
  apply Rabs_Ropp.
Qed.

(** ** The rounding error of [binary_round_aux] *)

Lemma half_ulp_bound (p : positive) (e q : Z) :
  q = Z.max (digits p + e - 53) (-1074) - e ->
  (bpow (e + q - 1) <= u * (IZR (Zpos p) * bpow e) + eta)%R.
Proof.
  intros Eq. pose proof (digits_bounds p) as [Bl _].
  pose proof (digits_pos p) as Dp.
  pose proof (bpow_pos e) as Pe.
  assert (U : (0 < u)%R) by apply bpow_pos.
  assert (E : (0 < eta)%R) by apply bpow_pos.
  assert (Ip : (0 < IZR (Zpos p))%R) by (apply IZR_lt; lia).
  destruct (Z.le_gt_cases (digits p + e - 53) (-1074)) as [L | G].
  - replace (e + q - 1) with (-1075) by lia. fold eta.
    assert (0 <= u * (IZR (Zpos p) * bpow e))%R
      by (apply Rmult_le_pos; [lra | apply Rmult_le_pos; lra]).
    lra.
  - replace (e + q - 1) with ((-53) + ((digits p - 1) + e)) by lia.
    rewrite !bpow_add. fold u.
    rewrite <- (IZR_pow2 (digits p - 1)) by lia. apply IZR_le in Bl.
    assert (0 <= u * ((IZR (Zpos p) - IZR (2 ^ (digits p - 1))) * bpow e))%R.
    { apply Rmult_le_pos; [lra |]. apply Rmult_le_pos; lra. }
    lra.
Qed.

(** A rounding that does not overflow is off by at most
    [u * |x| + eta]. *)
Lemma round_aux_error (s : bool) (p : positive) (e : Z) :
  let r := binary_round_aux F64.prec F64.emax s (Zpos p) e loc_Exact in
  F64.is_finite r = true ->
  (Rabs (B2R r - sval s (Zpos p) e) <= u * (IZR (Zpos p) * bpow e) + eta)%R.
Proof.
  intros r Hr. subst r. rewrite binary_round_aux_pair in *.
  pose proof (bpow_pos e) as Pe.
  assert (U : (0 < u)%R) by apply bpow_pos.
  assert (E : (0 < eta)%R) by apply bpow_pos.
  assert (Ip : (0 < IZR (Zpos p))%R) by (apply IZR_lt; lia).
  assert (Nonneg : (0 <= u * (IZR (Zpos p) * bpow e) + eta)%R).
  { assert (0 <= u * (IZR (Zpos p) * bpow e))%R
      by (apply Rmult_le_pos; [lra | apply Rmult_le_pos; lra]).
    lra. }
  set (q := Z.max (digits p + e - 53) (-1074) - e).
  destruct (round_pair_spec p e q eq_refl) as [Hle Hgt].
  destruct (Z.le_gt_cases q 0) as [L | G].
  - rewrite (Hle L) in *. cbn [fst snd] in *.
    destruct (e <=? 971); [| discriminate].
    cbn [B2R]. fold (sval s (Zpos p) e).
    replace (sval s (Zpos p) e - sval s (Zpos p) e)%R with 0%R by ring.
    now rewrite Rabs_R0.
  - destruct (Hgt G) as (m3 & k & Hp & Hm3 & Hk & Herr).
    rewrite Hp in *. cbn [fst snd] in *.
    assert (V : (Rabs (sval s m3 (e + k) - sval s (Zpos p) e)
                 <= u * (IZR (Zpos p) * bpow e) + eta)%R).
    { rewrite sval_diff, bpow_add, <- (IZR_pow2 k) by lia.
      replace (IZR m3 * (bpow e * IZR (2 ^ k)) - IZR (Zpos p) * bpow e)%R
        with (IZR (m3 * 2 ^ k - Zpos p) * bpow e)%R
        by (rewrite minus_IZR, mult_IZR; ring).
      rewrite Rabs_mult, (Rabs_pos_eq (bpow e)) by lra.
      rewrite <- abs_IZR.
      eapply Rle_trans; [| apply (half_ulp_bound p e q eq_refl)].
      replace (e + q - 1) with ((q - 1) + e) by lia.
      rewrite bpow_add, <- (IZR_pow2 (q - 1)) by lia.
      apply Rmult_le_compat_r; [lra |]. apply IZR_le.
      assert (2 ^ q = 2 * 2 ^ (q - 1))
        by (rewrite <- Z.pow_succ_r by lia; f_equal; lia).
      lia. }
    destruct m3 as [| p3 | p3]; try lia.
    + cbn [B2R]. unfold sval in V at 1. cbn [cond_Zopp] in V.
      replace (IZR (cond_Zopp s 0)) with 0%R in V by (now destruct s).
      now rewrite Rmult_0_l in V.
    + destruct (e + k <=? 971); [| discriminate]. exact V.
Qed.

(** ** The error of one operation *)

Lemma err_nonneg (x : R) : (0 <= u * Rabs x + eta)%R.
Proof.
  pose proof (bpow_pos (-53)). pose proof (bpow_pos (-1075)).
  pose proof (Rabs_pos x). unfold u, eta. nra.
Qed.

Lemma exact_error (x y : R) : x = y -> (Rabs (x - y) <= u * Rabs y + eta)%R.
Proof.
  intros ->. replace (y - y)%R with 0%R by ring. rewrite Rabs_R0.
  apply err_nonneg.
Qed.

Lemma shl_align_sval (m : positive) (e t : Z) :
  (IZR (Zpos (fst (shl_align m e t))) * bpow (snd (shl_align m e t))
   = IZR (Zpos m) * bpow e)%R.
Proof.
  unfold shl_align. destruct (t - e) as [| d | d] eqn:E; cbn [fst snd];
    try reflexivity.
  rewrite pshl_iter, pshl_Z, positive_nat_Z, mult_IZR, IZR_pow2 by lia.
  rewrite Rmult_assoc, <- bpow_add. do 2 f_equal. lia.
Qed.

Lemma sval_abs (s : bool) (p : positive) (e : Z) :
  Rabs (sval s (Zpos p) e) = (IZR (Zpos p) * bpow e)%R.
Proof.
  unfold sval. rewrite IZR_cond_Zopp.
  pose proof (bpow_pos e). assert (0 < IZR (Zpos p))%R by (apply IZR_lt; lia).
  assert (0 <= IZR (Zpos p) * bpow e)%R by (apply Rmult_le_pos; lra).
  destruct s.
  - replace (- IZR (Zpos p) * bpow e)%R with (- (IZR (Zpos p) * bpow e))%R by ring.
    rewrite Rabs_Ropp. now apply Rabs_pos_eq.
  - now apply Rabs_pos_eq.
Qed.

Lemma binary_round_error (s : bool) (p : positive) (e : Z) :
  F64.is_finite (binary_round F64.prec F64.emax s p e) = true ->
  (Rabs (B2R (binary_round F64.prec F64.emax s p e) - sval s (Zpos p) e)
   <= u * Rabs (sval s (Zpos p) e) + eta)%R.
Proof.
  unfold binary_round.
  pose proof (shl_align_sval p e (fexp F64.prec F64.emax (Zpos (digits2_pos p) + e))) as V.
  destruct (shl_align p e _) as [mz ez]. cbn [fst snd] in V.
  intros H. apply round_aux_error in H.
  rewrite sval_abs, <- V.
  replace (sval s (Zpos p) e) with (sval s (Zpos mz) ez); [exact H |].
  unfold sval. rewrite !IZR_cond_Zopp. destruct s; lra.
Qed.

Lemma normalize_error (z e : Z) :
  F64.is_finite (binary_normalize F64.prec F64.emax z e false) = true ->
  (Rabs (B2R (binary_normalize F64.prec F64.emax z e false) - IZR z * bpow e)
   <= u * Rabs (IZR z * bpow e) + eta)%R.
Proof.
  destruct z as [| p | p]; cbn [binary_normalize]; intros H.
  - apply exact_error. cbn [B2R]. ring.
  - exact (binary_round_error false p e H).
  - exact (binary_round_error true p e H).
Qed.

(** The rounding error of one addition that does not overflow. *)
Lemma add_error (x y : F64.t) :
  F64.is_finite (F64.add x y) = true ->
  (Rabs (B2R (F64.add x y) - (B2R x + B2R y))
   <= u * Rabs (B2R x + B2R y) + eta)%R.
Proof.
  destruct x as [sx | sx | | sx mx ex], y as [sy | sy | | sy my ey];
    try (destruct sx, sy; cbn; discriminate);
    try (destruct sx; cbn; discriminate);
    try (destruct sy; cbn; discriminate);
    try (cbn; discriminate).
  - intros _. apply exact_error. destruct sx, sy; cbn; ring.
  - intros _. apply exact_error. cbn. ring.
  - intros _. apply exact_error. cbn. ring.
  - unfold F64.add, SFadd. intros H. apply normalize_error in H.
    set (ez := Z.min ex ey) in *.
    assert (V : (IZR (cond_Zopp sx (Zpos (fst (shl_align mx ex ez)))
                      + cond_Zopp sy (Zpos (fst (shl_align my ey ez))))
                 * bpow ez
                 = B2R (S754_finite sx mx ex) + B2R (S754_finite sy my ey))%R).
    { cbn [B2R]. rewrite plus_IZR, !IZR_cond_Zopp.
      rewrite !shl_align_value by (subst ez; lia).
      rewrite !mult_IZR, !IZR_pow2 by (subst ez; lia).
      assert (Ex : bpow ex = (bpow (ex - ez) * bpow ez)%R)
        by (rewrite <- bpow_add; f_equal; lia).
      assert (Ey : bpow ey = (bpow (ey - ez) * bpow ez)%R)
        by (rewrite <- bpow_add; f_equal; lia).
      rewrite Ex, Ey. destruct sx, sy; ring. }
    rewrite V in H. exact H.
Qed.

(** The rounding error of one multiplication that does not overflow. *)
Lemma mul_error (x y : F64.t) :
  F64.is_finite (F64.mul x y) = true ->
  (Rabs (B2R (F64.mul x y) - B2R x * B2R y)
   <= u * Rabs (B2R x * B2R y) + eta)%R.
Proof.
  destruct x as [sx | sx | | sx mx ex], y as [sy | sy | | sy my ey];
    try (cbn; discriminate).
  - intros _. apply exact_error. cbn. ring.
  - intros _. apply exact_error. cbn. ring.
  - intros _. apply exact_error. cbn. ring.
  - unfold F64.mul, SFmul. intros H.
    pose proof (round_aux_error _ _ _ H) as E.
    assert (V : sval (xorb sx sy) (Zpos (mx * my)) (ex + ey)
                = (B2R (S754_finite sx mx ex) * B2R (S754_finite sy my ey))%R).
    { unfold sval. cbn [B2R].
      rewrite !IZR_cond_Zopp, Pos2Z.inj_mul, mult_IZR, bpow_add.
      destruct sx, sy; cbn [xorb]; ring. }
    rewrite <- V, sval_abs. rewrite V at 1. rewrite <- V. exact E.
Qed.

Lemma add_finite_inv (x y : F64.t) :
  F64.is_finite (F64.add x y) = true ->
  F64.is_finite x = true /\ F64.is_finite y = true.
Proof.
  destruct x as [sx | sx | | sx mx ex], y as [sy | sy | | sy my ey];
    try (destruct sx, sy; cbn; now intuition);
    try (destruct sx; cbn; now intuition);
    try (destruct sy; cbn; now intuition);
    cbn; now intuition.
Qed.

Lemma mul_finite_inv (x y : F64.t) :
  F64.is_finite (F64.mul x y) = true ->
  F64.is_finite x = true /\ F64.is_finite y = true.
Proof.
  destruct x as [sx | sx | | sx mx ex], y as [sy | sy | | sy my ey];
    cbn; now intuition.
Qed.

(** ** The error of a fused multiply-add *)

Lemma B2R_exact_product (sx sy : bool) (mx my : positive) (ex ey : Z) :
  B2R (S754_finite (xorb sx sy) (mx * my) (ex + ey))
  = (B2R (S754_finite sx mx ex) * B2R (S754_finite sy my ey))%R.
Proof.
  cbn [B2R]. rewrite !IZR_cond_Zopp, Pos2Z.inj_mul, mult_IZR, bpow_add.
  destruct sx, sy; cbn [xorb]; ring.
Qed.

(** A product with a zero, an infinity or a NaN is exact when finite. *)
Lemma mul_special_exact (x y : F64.t) :
  F64.is_finite (F64.mul x y) = true ->
  match x, y with
  | S754_finite _ _ _, S754_finite _ _ _ => False
  | _, _ => True
  end ->
  B2R (F64.mul x y) = (B2R x * B2R y)%R.
Proof.
  destruct x as [sx | sx | | sx mx ex], y as [sy | sy | | sy my ey];
    cbn; intros H N; try discriminate; try contradiction; ring.
Qed.

(** A fused multiply-add rounds once: a finite result is within one
    rounding error of the exact [x * y + z]. *)
Lemma fused_multiply_add_error (x y z : F64.t) :
  F64.is_finite (fused_multiply_add x y z) = true ->
  (Rabs (B2R (fused_multiply_add x y z) - (B2R x * B2R y + B2R z))
   <= u * Rabs (B2R x * B2R y + B2R z) + eta)%R.
Proof.
  assert (G : forall x y : F64.t,
             match x, y with
             | S754_finite _ _ _, S754_finite _ _ _ => False
             | _, _ => True
             end ->
             F64.is_finite (F64.add (F64.mul x y) z) = true ->
             (Rabs (B2R (F64.add (F64.mul x y) z) - (B2R x * B2R y + B2R z))
              <= u * Rabs (B2R x * B2R y + B2R z) + eta)%R).
  { intros x' y' N H. pose proof (add_error _ _ H) as E.
    destruct (add_finite_inv _ _ H) as [H1 _].
    now rewrite (mul_special_exact _ _ H1 N) in E. }
  destruct x as [sx | sx | | sx mx ex], y as [sy | sy | | sy my ey];
    try (cbn [fused_multiply_add]; apply G; exact I).
  destruct z as [sz | sz | | sz mz ez]; cbn [fused_multiply_add]; intros H.
  - pose proof (mul_error _ _ H) as E.
    cbn [B2R] in *. now rewrite Rplus_0_r.
  - pose proof (add_error _ _ H) as E.
    now rewrite B2R_exact_product in E.
  - pose proof (add_error _ _ H) as E.
    now rewrite B2R_exact_product in E.
  - pose proof (add_error _ _ H) as E.
    now rewrite B2R_exact_product in E.
Qed.

(** ** The accumulated error of the loop *)

Lemma u_bounds : (0 < u < 1)%R.
Proof.
  split; [apply bpow_pos |].
  assert (H : (u * bpow 53 = 1)%R).
  { unfold u. rewrite <- bpow_add. reflexivity. }
  rewrite <- IZR_pow2 in H by lia.
  change (2 ^ 53) with 9007199254740992 in H.
  pose proof (bpow_pos (-53)) as P. fold u in P. lra.
Qed.

Lemma eta_pos : (0 < eta)%R.
Proof. apply bpow_pos. Qed.

Lemma g_pow_ge_1 (k : nat) : (1 <= g ^ k)%R.
Proof. apply pow_R1_Rle. unfold g. pose proof u_bounds. lra. Qed.

Lemma rabs_nonneg l : (0 <= rabs l)%R.
Proof.
  induction l as [| xy l IH]; cbn [rabs]; [lra |].
  pose proof (Rabs_pos (B2R (fst xy) * B2R (snd xy))). lra.
Qed.

Lemma rsum_le_rabs l : (Rabs (rsum l) <= rabs l)%R.
Proof.
  induction l as [| xy l IH]; cbn [rsum rabs].
  - rewrite Rabs_R0. lra.
  - eapply Rle_trans; [apply Rabs_triang |]. lra.
Qed.

(** One step of the loop on real numbers. *)
Lemma step_bound (s S T E p x s' : R) :
  (Rabs (s - S) <= E)%R -> (Rabs S <= T)%R ->
  (Rabs (p - x) <= u * Rabs x + eta)%R ->
  (Rabs (s' - (s + p)) <= u * Rabs (s + p) + eta)%R ->
  (Rabs (s' - (S + x)) <= g * E + u * T + u * (g + 1) * Rabs x + (2 + u) * eta)%R.
Proof.
  intros Hs HS Hp Hs'. pose proof u_bounds as [U0 U1]. unfold g.
  pose proof (Rabs_pos x) as X0.
  assert (A1 : (Rabs s <= T + E)%R).
  { replace s with ((s - S) + S)%R by ring.
    eapply Rle_trans; [apply Rabs_triang |]. lra. }
  assert (A2 : (Rabs p <= (1 + u) * Rabs x + eta)%R).
  { replace p with ((p - x) + x)%R by ring.
    eapply Rle_trans; [apply Rabs_triang |]. lra. }
  assert (A3 : (Rabs (s + p) <= T + E + (1 + u) * Rabs x + eta)%R).
  { eapply Rle_trans; [apply Rabs_triang |]. lra. }
  assert (A4 : (u * Rabs (s + p) <= u * (T + E + (1 + u) * Rabs x + eta))%R)
    by (apply Rmult_le_compat_l; lra).
  replace (s' - (S + x))%R with ((s' - (s + p)) + (s - S) + (p - x))%R by ring.
  eapply Rle_trans; [apply Rabs_triang |].
  eapply Rle_trans; [apply Rplus_le_compat_r, Rabs_triang |].
  lra.
Qed.

Lemma acc_bound_step (k : nat) (T t : R) :
  (0 <= T)%R -> (0 <= t)%R ->
  (g * acc_bound k T + u * T + u * (g + 1) * t + (2 + u) * eta
   <= acc_bound (S k) (T + t))%R.
Proof.
  intros HT Ht. unfold acc_bound.
  pose proof u_bounds as [U0 U1]. pose proof eta_pos as E0.
  pose proof (g_pow_ge_1 k) as P1.
  replace (S k + 1)%nat with (S (S k)) by lia.
  replace (k + 1)%nat with (S k) by lia.
  rewrite S_INR. cbn [pow]. set (P := (g ^ k)%R) in *.
  assert (H1 : (0 <= g * g * (P - 1) * t)%R).
  { unfold g. apply Rmult_le_pos; [| lra].
    apply Rmult_le_pos; [| lra]. apply Rmult_le_pos; lra. }
  assert (H2 : (0 <= (3 * g * P - 2 - u) * eta)%R).
  { apply Rmult_le_pos; [| lra]. unfold g.
    assert (0 <= u * P)%R by (apply Rmult_le_pos; lra). lra. }
  apply Rminus_le.
  match goal with |- (?l - ?r <= 0)%R =>
    replace (l - r)%R
      with (- (g * g * (P - 1) * t + (3 * g * P - 2 - u) * eta))%R
      by (unfold g; ring)
  end.
  lra.
Qed.

Lemma acc_bound_0 : acc_bound 0 0 = 0%R.
Proof. unfold acc_bound. cbn. ring. Qed.

Lemma fold_finite_inv (l : list (F64.t * F64.t)) :
  forall s : F64.t,
    F64.is_finite (fold_left accumulate l s) = true ->
    F64.is_finite s = true.
Proof.
  induction l as [| xy l IH]; intros s H; [exact H |].
  cbn [fold_left] in H. apply IH in H. unfold accumulate in H.
  now apply add_finite_inv in H.
Qed.

Lemma fold_products_finite (l : list (F64.t * F64.t)) :
  forall s : F64.t,
    F64.is_finite (fold_left accumulate l s) = true ->
    Forall (fun xy => F64.is_finite (F64.mul (fst xy) (snd xy)) = true) l.
Proof.
  induction l as [| xy l IH]; intros s H; constructor.
  - cbn [fold_left] in H. apply fold_finite_inv in H. unfold accumulate in H.
    now apply add_finite_inv in H.
  - cbn [fold_left] in H. exact (IH _ H).
Qed.

(** The accumulated error of the loop, when nothing overflows. *)
Lemma fold_error (l : list (F64.t * F64.t)) :
  forall (s : F64.t) (S T : R) (k : nat),
    F64.is_finite (fold_left accumulate l s) = true ->
    (Rabs (B2R s - S) <= acc_bound k T)%R -> (Rabs S <= T)%R ->
    (Rabs (B2R (fold_left accumulate l s) - (S + rsum l))
     <= acc_bound (k + length l) (T + rabs l))%R.
Proof.
  induction l as [| xy l IH]; intros s S T k Hf Hs HS.
  - cbn [fold_left rsum rabs length]. now rewrite Nat.add_0_r, !Rplus_0_r.
  - cbn [fold_left rsum rabs length] in *.
    pose proof (fold_finite_inv _ _ Hf) as F1. unfold accumulate in F1.
    pose proof (add_finite_inv _ _ F1) as [_ F2].
    pose proof (add_error _ _ F1) as Ea.
    pose proof (mul_error _ _ F2) as Em.
    pose proof (step_bound _ _ _ _ _ _ _ Hs HS Em Ea) as St.
    assert (T0 : (0 <= T)%R) by (pose proof (Rabs_pos S); lra).
    pose proof (acc_bound_step k T _ T0 (Rabs_pos (B2R (fst xy) * B2R (snd xy)))) as Cl.
    rewrite Nat.add_succ_r, <- Nat.add_succ_l, <- !Rplus_assoc.
    apply IH; [exact Hf | unfold accumulate; lra |].
    eapply Rle_trans; [apply Rabs_triang |]. lra.
Qed.

Lemma dot_fold_error (a b : list F64.t) :
  F64.is_finite (dot_fold a b) = true ->
  (Rabs (B2R (dot_fold a b) - rsum (combine a b))
   <= acc_bound (length (combine a b)) (rabs (combine a b)))%R.
Proof.
  intros H. unfold dot_fold in *.
  pose proof (fold_error (combine a b) F64.zero 0 0 0 H) as E.
  rewrite !Rplus_0_l in E. cbn [Nat.add] in E. apply E.
  - cbn [B2R F64.zero]. rewrite Rminus_0_r, Rabs_R0, acc_bound_0. lra.
  - rewrite Rabs_R0. lra.
Qed.

Lemma elem_bound (A Bv Cv Dv : R) :
  (Rabs (Dv - (Bv + Cv)) <= u * Rabs (Bv + Cv) + eta)%R ->
  (Rabs (A * Dv - (A * Bv + A * Cv))
   <= u * (Rabs (A * Bv) + Rabs (A * Cv)) + eta * Rabs A)%R /\
  (Rabs (A * Dv) <= g * (Rabs (A * Bv) + Rabs (A * Cv)) + eta * Rabs A)%R.
Proof.
  intros H. pose proof u_bounds as [U0 U1]. pose proof eta_pos as E0.
  pose proof (Rabs_pos A) as A0.
  pose proof (Rabs_triang Bv Cv) as Tr.
  assert (H1 : (Rabs (Dv - (Bv + Cv)) <= u * (Rabs Bv + Rabs Cv) + eta)%R).
  { assert (u * Rabs (Bv + Cv) <= u * (Rabs Bv + Rabs Cv))%R
      by (apply Rmult_le_compat_l; lra). lra. }
  assert (H2 : (Rabs A * Rabs (Dv - (Bv + Cv))
                <= Rabs A * (u * (Rabs Bv + Rabs Cv) + eta))%R)
    by (apply Rmult_le_compat_l; lra).
  assert (H3 : (Rabs Dv <= g * (Rabs Bv + Rabs Cv) + eta)%R).
  { replace Dv with ((Dv - (Bv + Cv)) + (Bv + Cv))%R by ring.
    eapply Rle_trans; [apply Rabs_triang |]. unfold g. lra. }
  assert (H4 : (Rabs A * Rabs Dv <= Rabs A * (g * (Rabs Bv + Rabs Cv) + eta))%R)
    by (apply Rmult_le_compat_l; lra).
  rewrite !Rabs_mult.
  replace (A * Dv - (A * Bv + A * Cv))%R with (A * (Dv - (Bv + Cv)))%R by ring.
  rewrite Rabs_mult. split; lra.
Qed.

Lemma vec_add_error (a : list F64.t) :
  forall b c : list F64.t,
    length a = length b -> length b = length c ->
    Forall (fun xy => F64.is_finite (F64.mul (fst xy) (snd xy)) = true)
           (combine a (vec_add b c)) ->
    (Rabs (rsum (combine a (vec_add b c))
           - (rsum (combine a b) + rsum (combine a c)))
     <= u * (rabs (combine a b) + rabs (combine a c)) + eta * rnorm1 a)%R /\
    (rabs (combine a (vec_add b c))
     <= g * (rabs (combine a b) + rabs (combine a c)) + eta * rnorm1 a)%R.
Proof.
  induction a as [| x a IH]; intros [| y b] [| z c] L1 L2 Hf;
    try discriminate.
  - cbn [vec_add combine rsum rabs rnorm1]. split; [| lra].
    replace (0 - (0 + 0))%R with 0%R by ring. rewrite Rabs_R0. lra.
  - injection L1 as L1. injection L2 as L2.
    cbn [vec_add combine] in Hf. inversion Hf as [| ? ? Hxy Hf']; subst.
    cbn [fst snd] in Hxy. apply mul_finite_inv in Hxy as [_ Hd].
    destruct (IH b c L1 L2 Hf') as [I1 I2].
    destruct (elem_bound (B2R x) (B2R y) (B2R z) (B2R (F64.add y z))
                         (add_error y z Hd)) as [E1 E2].
    cbn [vec_add combine rsum rabs rnorm1 fst snd].
    split.
    + match goal with |- (Rabs ?e <= _)%R =>
        replace e with
          ((B2R x * B2R (F64.add y z) - (B2R x * B2R y + B2R x * B2R z))
           + (rsum (combine a (vec_add b c))
              - (rsum (combine a b) + rsum (combine a c))))%R by ring
      end.
      eapply Rle_trans; [apply Rabs_triang |]. lra.
    + lra.
Qed.

Lemma length_vec_add (b c : list F64.t) :
  length b = length c -> length (vec_add b c) = length b.
Proof.
  revert c. induction b as [| y b IH]; intros [| z c] L;
    try discriminate; [reflexivity |].
  injection L as L. cbn [vec_add length]. now rewrite IH.
Qed.

Lemma linearity_algebra (n : nat) (L RHS R1 R2 X1 X2 XD W1 W2 WD A : R) :
  (Rabs (L - XD) <= acc_bound n WD)%R ->
  (Rabs (XD - (X1 + X2)) <= u * (W1 + W2) + eta * A)%R ->
  (WD <= g * (W1 + W2) + eta * A)%R ->
  (Rabs (R1 - X1) <= acc_bound n W1)%R ->
  (Rabs (R2 - X2) <= acc_bound n W2)%R ->
  (Rabs (RHS - (R1 + R2)) <= u * Rabs (R1 + R2) + eta)%R ->
  (Rabs X1 <= W1)%R -> (Rabs X2 <= W2)%R -> (0 <= A)%R ->
  (Rabs (L - RHS)
   <= 2 * (g ^ (n + 2) - 1) * (W1 + W2)
      + g ^ (n + 1) * (A + 9 * INR n + 1) * eta)%R.
Proof.
  intros HL HD HWD H1 H2 HR HX1 HX2 HA.
  pose proof u_bounds as [U0 U1]. pose proof eta_pos as E0.
  pose proof (g_pow_ge_1 n) as P1. pose proof (pos_INR n) as N0.
  unfold acc_bound in *.
  replace (n + 2)%nat with (S (S n)) by lia.
  replace (n + 1)%nat with (S n) in * by lia.
  cbn [pow] in *. set (P := (g ^ n)%R) in *.
  assert (G1 : (0 <= g * P - 1)%R).
  { unfold g. assert (0 <= u * P)%R by (apply Rmult_le_pos; lra). lra. }
  assert (W10 : (0 <= W1)%R) by (pose proof (Rabs_pos X1); lra).
  assert (W20 : (0 <= W2)%R) by (pose proof (Rabs_pos X2); lra).
  assert (K1 : ((g * P - 1) * WD <= (g * P - 1) * (g * (W1 + W2) + eta * A))%R)
    by (apply Rmult_le_compat_l; lra).
  assert (S12 : (Rabs (R1 + R2) <= g * P * (W1 + W2) + 2 * (3 * INR n * P * eta))%R).
  { replace (R1 + R2)%R with ((R1 - X1) + (R2 - X2) + X1 + X2)%R by ring.
    eapply Rle_trans; [apply Rabs_triang |].
    eapply Rle_trans; [apply Rplus_le_compat_r, Rabs_triang |].
    eapply Rle_trans;
      [apply Rplus_le_compat_r, Rplus_le_compat_r, Rabs_triang |].
    lra. }
  assert (K2 : (u * Rabs (R1 + R2)
                <= u * (g * P * (W1 + W2) + 2 * (3 * INR n * P * eta)))%R)
    by (apply Rmult_le_compat_l; lra).
  assert (EL : (Rabs (L - (X1 + X2))
                <= (g * P - 1) * (g * (W1 + W2) + eta * A) + 3 * INR n * P * eta
                   + u * (W1 + W2) + eta * A)%R).
  { replace (L - (X1 + X2))%R with ((L - XD) + (XD - (X1 + X2)))%R by ring.
    eapply Rle_trans; [apply Rabs_triang |]. lra. }
  assert (ER : (Rabs (RHS - (X1 + X2))
                <= u * (g * P * (W1 + W2) + 2 * (3 * INR n * P * eta)) + eta
                   + (g * P - 1) * (W1 + W2) + 2 * (3 * INR n * P * eta))%R).
  { replace (RHS - (X1 + X2))%R
      with ((RHS - (R1 + R2)) + (R1 - X1) + (R2 - X2))%R by ring.
    eapply Rle_trans; [apply Rabs_triang |].
    eapply Rle_trans; [apply Rplus_le_compat_r, Rabs_triang |].
    lra. }
  assert (ET : (Rabs (L - RHS)
                <= ((g * P - 1) * (g * (W1 + W2) + eta * A) + 3 * INR n * P * eta
                    + u * (W1 + W2) + eta * A)
                   + (u * (g * P * (W1 + W2) + 2 * (3 * INR n * P * eta)) + eta
                      + (g * P - 1) * (W1 + W2) + 2 * (3 * INR n * P * eta)))%R).
  { replace (L - RHS)%R
      with ((L - (X1 + X2)) + - (RHS - (X1 + X2)))%R by ring.
    eapply Rle_trans; [apply Rabs_triang |]. rewrite Rabs_Ropp. lra. }
  eapply Rle_trans; [exact ET |].
  assert (Z : (0 <= (3 * INR n * P * u + (g * P - 1)) * eta)%R).
  { apply Rmult_le_pos; [| lra].
    assert (0 <= 3 * INR n * P * u)%R.
    { apply Rmult_le_pos; [| lra]. apply Rmult_le_pos; [| lra]. lra. }
    lra. }
  apply Rminus_le.
  match goal with |- (?l - ?r <= 0)%R =>
    replace (l - r)%R with (- ((3 * INR n * P * u + (g * P - 1)) * eta))%R
      by (unfold g; ring)
  end.
  lra.
Qed.

Lemma rnorm1_nonneg (a : list F64.t) : (0 <= rnorm1 a)%R.
Proof.
  induction a as [| x a IH]; cbn [rnorm1]; [lra |].
  pose proof (Rabs_pos (B2R x)). lra.
Qed.

(** ** The claims *)

(** C1. For sequences of one length, [dot] returns the sum of the
    products [a_i * b_i], i from 0 up to the length, accumulated from
    0.0 by plain binary64 additions in index order; the call reads each
    position of each array once, in increasing order (a single pass). *)
Theorem dot_left_to_right_sum (a b : list F64.t) :
  length a = length b ->
  call a b = (Ret (partial_sum a b (length a)),
              mkState a b (pass_reads 0 (length a))).
Proof.
  intros H. unfold call.
  rewrite dot_cpp_run by exact H.
  now rewrite dot_fold_partial_sum by exact H.
Qed.

Lemma dot_left_to_right_sum_witness :
  length sample_a = length sample_b /\
  call sample_a sample_b
  = (Ret (partial_sum sample_a sample_b (length sample_a)),
     mkState sample_a sample_b (pass_reads 0 (length sample_a))).
Proof.
  split; [reflexivity | apply (dot_left_to_right_sum sample_a sample_b)].
  reflexivity.
Defined.

(** C2. [dot] throws the length-mismatch exception exactly when the two
    lengths differ, and returns a value exactly when they agree: no other
    outcome exists. *)
Theorem dot_error_iff_mismatch (a b : list F64.t) :
  (dot a b = Throw LengthMismatch <-> length a <> length b) /\
  ((exists r, dot a b = Ret r) <-> length a = length b) /\
  (forall e, dot a b = Throw e -> e = LengthMismatch) /\
  dot a b <> Undefined /\ dot a b <> OutOfFuel.
Proof.
  destruct (Nat.eq_dec (length a) (length b)) as [E | N].
  - rewrite (dot_equal_length a b E). repeat split; try discriminate.
    + intros N. contradiction.
    + intros _. exact E.
    + intros _. now exists (dot_fold a b).
  - rewrite (dot_mismatch a b N). repeat split; try discriminate.
    + intros _. exact N.
    + intros [r Hr]. discriminate.
    + intros E. contradiction.
    + intros e He. now injection He as <-.
Qed.

(** C3. On two empty sequences [dot] returns exactly [+0.0]. *)
Theorem dot_empty :
  dot [] [] = Ret F64.zero /\ outcome_eqb (dot [] []) (Ret F64.zero) = true.
Proof. split; reflexivity. Qed.

(** C4, as stated: on [a = [NaN]] and [b = [1.0]], two sequences of one
    length, both calls return a NaN, so [dot(a, b) == dot(b, a)] is
    false. *)
Lemma dot_comm_eq_fails_on_nan :
  forallb F64.valid [F64.nan; F64.of_Z 1] = true /\
  length [F64.nan] = length [F64.of_Z 1] /\
  dot [F64.nan] [F64.of_Z 1] = Ret F64.nan /\
  dot [F64.of_Z 1] [F64.nan] = Ret F64.nan /\
  outcome_eqb (dot [F64.nan] [F64.of_Z 1]) (dot [F64.of_Z 1] [F64.nan])
  = false.
Proof. repeat split. Qed.

(** C4, amended. For sequences of one length, [dot(a, b)] and
    [dot(b, a)] return the same double, and [dot(a, b) == dot(b, a)]
    holds exactly when that double is not a NaN. *)
Theorem dot_comm (a b : list F64.t) :
  length a = length b ->
  exists r,
    dot a b = Ret r /\ dot b a = Ret r /\
    (outcome_eqb (dot a b) (dot b a) = true <-> F64.is_nan r = false).
Proof.
  intros H. exists (dot_fold a b).
  rewrite (dot_equal_length a b H), (dot_equal_length b a (eq_sym H)).
  rewrite (dot_fold_comm b a).
  repeat split; cbn [outcome_eqb]; apply F64_eqb_refl_iff.
Qed.

Lemma dot_comm_witness :
  length sample_a = length sample_b /\
  exists r,
    dot sample_a sample_b = Ret r /\ dot sample_b sample_a = Ret r /\
    (outcome_eqb (dot sample_a sample_b) (dot sample_b sample_a) = true
     <-> F64.is_nan r = false).
Proof.
  split; [reflexivity | apply (dot_comm sample_a sample_b); reflexivity].
Defined.

(** C5, as stated: on [a = [+inf]] the product [inf * 0.0] is a NaN, the
    call returns a NaN, and [dot(a, zeros_like(a)) == 0.0] is false. *)
Lemma dot_zeros_fails_on_infinity :
  forallb F64.valid (F64.infinity :: zeros_like [F64.infinity]) = true /\
  dot [F64.infinity] (zeros_like [F64.infinity]) = Ret F64.nan /\
  outcome_eqb (dot [F64.infinity] (zeros_like [F64.infinity]))
              (Ret F64.zero) = false.
Proof. repeat split. Qed.

(** C5, amended. For every sequence [a] whose elements are all finite
    (no infinity, no NaN), [dot(a, zeros_like(a))] returns [+0.0]. *)
Theorem dot_zeros_finite (a : list F64.t) :
  forallb F64.is_finite a = true ->
  dot a (zeros_like a) = Ret F64.zero /\
  outcome_eqb (dot a (zeros_like a)) (Ret F64.zero) = true.
Proof.
  intros H.
  rewrite dot_equal_length by (unfold zeros_like; now rewrite length_map).
  rewrite dot_fold_zeros by exact H. split; reflexivity.
Qed.

Lemma dot_zeros_finite_witness :
  forallb F64.is_finite [F64.of_Z (-1); F64.of_Z 2; F64.max_value] = true /\
  dot [F64.of_Z (-1); F64.of_Z 2; F64.max_value]
      (zeros_like [F64.of_Z (-1); F64.of_Z 2; F64.max_value])
  = Ret F64.zero.
Proof.
  split; [reflexivity |].
  apply (dot_zeros_finite [F64.of_Z (-1); F64.of_Z 2; F64.max_value]).
  reflexivity.
Defined.

(** C6. [dot([1.0, 2.0, 3.0], [4.0, 5.0, 6.0])] returns exactly 32.0. *)
Theorem dot_sample_32 :
  dot sample_a sample_b = Ret (F64.of_Z 32) /\
  F64.of_Z 32 = S754_finite false 4503599627370496 (-47).
Proof. split; vm_compute; reflexivity. Qed.

(** C7, as stated: on [a = [2.0]], [b = [DBL_MAX]], [c = [-DBL_MAX]] the
    sum [b + c] is [[0.0]] and [dot(a, b+c)] returns 0.0, while
    [dot(a, b)] and [dot(a, c)] overflow to [+inf] and [-inf], whose sum
    is a NaN: no tolerance makes the two sides close. *)
Lemma dot_linear_fails_on_overflow :
  forallb F64.valid (overflow_a ++ overflow_b ++ overflow_c) = true /\
  length overflow_a = length overflow_b /\
  length overflow_b = length overflow_c /\
  dot overflow_a (vec_add overflow_b overflow_c) = Ret F64.zero /\
  dot overflow_a overflow_b = Ret F64.infinity /\
  dot overflow_a overflow_c = Ret (F64.opp F64.infinity) /\
  F64.add F64.infinity (F64.opp F64.infinity) = F64.nan /\
  (forall atol rtol : F64.t,
      within_tol atol rtol F64.zero F64.nan = false).
Proof. repeat split. Qed.

(** C7, amended. For sequences [a], [b], [c] of one length [n], when
    [dot(a, b+c)] and [dot(a, b) + dot(a, c)] are both finite (nothing
    overflowed), they differ by at most
    [2 ((1+u)^(n+2) - 1) S + (1+u)^(n+1) (A + 9 n + 1) eta], where [S] is
    the sum of the [|a_i| (|b_i| + |c_i|)], [A] the sum of the [|a_i|],
    [u = 2^-53] and [eta = 2^-1075]. *)
Theorem dot_linear_within_tol (a b c : list F64.t) (l r1 r2 : F64.t) :
  length a = length b -> length b = length c ->
  dot a (vec_add b c) = Ret l -> dot a b = Ret r1 -> dot a c = Ret r2 ->
  F64.is_finite l = true -> F64.is_finite (F64.add r1 r2) = true ->
  (Rabs (B2R l - B2R (F64.add r1 r2)) <= linearity_tol a b c)%R.
Proof.
  intros L1 L2 Hl H1 H2 Fl Fr.
  rewrite dot_equal_length in Hl by (now rewrite length_vec_add).
  rewrite dot_equal_length in H1 by exact L1.
  rewrite dot_equal_length in H2 by congruence.
  injection Hl as <-. injection H1 as <-. injection H2 as <-.
  pose proof (add_finite_inv _ _ Fr) as [F1 F2].
  pose proof (dot_fold_error _ _ Fl) as EL.
  pose proof (dot_fold_error _ _ F1) as E1.
  pose proof (dot_fold_error _ _ F2) as E2.
  rewrite length_combine in EL, E1, E2.
  rewrite length_vec_add in EL by exact L2.
  rewrite <- L1, Nat.min_id in EL, E1.
  rewrite <- L2, <- L1, Nat.min_id in E2.
  destruct (vec_add_error a b c L1 L2
              (fold_products_finite _ _ Fl)) as [V1 V2].
  unfold linearity_tol.
  exact (linearity_algebra _ _ _ _ _ _ _ _ _ _ _ _
           EL V1 V2 E1 E2 (add_error _ _ Fr)
           (rsum_le_rabs _) (rsum_le_rabs _) (rnorm1_nonneg a)).
Qed.

Lemma dot_linear_within_tol_witness :
  length round_a = length round_b /\
  length round_b = length round_c /\
  dot round_a (vec_add round_b round_c) = Ret (F64.of_Z 1) /\
  dot round_a round_b = Ret (F64.of_Z (2 ^ 53)) /\
  dot round_a round_c = Ret (F64.of_Z (- 2 ^ 53)) /\
  F64.is_finite (F64.of_Z 1) = true /\
  F64.is_finite (F64.add (F64.of_Z (2 ^ 53)) (F64.of_Z (- 2 ^ 53))) = true /\
  (Rabs (B2R (F64.of_Z 1)
         - B2R (F64.add (F64.of_Z (2 ^ 53)) (F64.of_Z (- 2 ^ 53))))
   <= linearity_tol round_a round_b round_c)%R.
Proof.
  repeat (split; [vm_compute; reflexivity |]).
  apply (dot_linear_within_tol round_a round_b round_c);
    vm_compute; reflexivity.
Defined.

(** C8. A call leaves both arrays as it found them, whether it returns
    or throws, and its outcome is a function of the two arrays alone. *)
Theorem dot_cpp_reads_only (st : state) :
  arrA (snd (dot_cpp st)) = arrA st /\
  arrB (snd (dot_cpp st)) = arrB st /\
  fst (dot_cpp st) = dot (arrA st) (arrB st).
Proof.
  split; [| split; [| apply dot_cpp_outcome]];
    destruct st as [a b log]; cbn [arrA arrB];
    (destruct (Nat.eq_dec (length a) (length b)) as [E | N];
     [ now rewrite dot_cpp_run by exact E
     | now rewrite dot_cpp_mismatch by exact N ]).
Qed.

(** C9. When the two lengths agree, every index the loop visits is a
    position of both arrays, every read the call performs is in bounds,
    and the call never reaches the out-of-range branch of [index]. *)
Theorem dot_reads_in_bounds (a b : list F64.t) :
  length a = length b ->
  (forall i, 0 <= i < Z.of_nat (length a) ->
             exists x y, index a i = Some x /\ index b i = Some y) /\
  forallb (in_bounds (mkState a b [])) (reads (snd (call a b))) = true /\
  dot a b <> Undefined.
Proof.
  intros H. split; [| split].
  - intros i Hi.
    destruct (index_in_range a i Hi) as [x Hx].
    destruct (index_in_range b i) as [y Hy]; [rewrite <- H; exact Hi |].
    now exists x, y.
  - unfold call. rewrite dot_cpp_run by exact H. cbn [snd reads app].
    apply forallb_forall. intros [p j] Hin.
    apply pass_reads_in in Hin.
    unfold in_bounds. cbn [fst snd].
    destruct p; cbn [contents arrA arrB].
    + destruct (index_in_range a j) as [x ->]; [lia | reflexivity].
    + destruct (index_in_range b j) as [y ->]; [lia | reflexivity].
  - rewrite dot_equal_length by exact H. discriminate.
Qed.

Lemma dot_reads_in_bounds_witness :
  length sample_a = length sample_b /\
  forallb (in_bounds (mkState sample_a sample_b []))
          (reads (snd (call sample_a sample_b))) = true.
Proof.
  split; [reflexivity |].
  apply (dot_reads_in_bounds sample_a sample_b). reflexivity.
Defined.



(** ** Further facts of binary64 arithmetic *)

Lemma B2R_of_Z (n : Z) : small n -> B2R (F64.of_Z n) = IZR n.
Proof.
  intros H. destruct (signed_cases n) as [-> | (s & p & ->)]; [reflexivity |].
  assert (D : digits p <= 53).
  { apply small_digits. unfold small in *. now rewrite signed_abs in H. }
  pose proof (digits_pos p) as Dp.
  rewrite of_Z_signed by exact D. unfold canon, signed. cbn [B2R].
  rewrite !IZR_cond_Zopp, pshl_Z, mult_IZR, IZR_pow2 by lia.
  assert (E : (bpow (Z.of_nat (Z.to_nat (53 - digits p))) * bpow (0 + digits p - 53) = 1)%R).
  { rewrite <- bpow_add. replace (_ + _) with 0 by lia. reflexivity. }
  destruct s; [rewrite <- Ropp_mult_distr_l |]; rewrite Rmult_assoc, E; ring.
Qed.

Lemma accumulate_nan_l (xy : F64.t * F64.t) : accumulate F64.nan xy = F64.nan.
Proof. reflexivity. Qed.

Lemma fold_nan (l : list (F64.t * F64.t)) :
  fold_left accumulate l F64.nan = F64.nan.
Proof. induction l as [| xy l IH]; [reflexivity | exact IH]. Qed.

Lemma mul_nan_l (y : F64.t) : F64.mul F64.nan y = F64.nan.
Proof. reflexivity. Qed.

Lemma mul_nan_r (x : F64.t) : F64.mul x F64.nan = F64.nan.
Proof. now destruct x. Qed.

Lemma add_nan_r (x : F64.t) : F64.add x F64.nan = F64.nan.
Proof. now destruct x. Qed.

Lemma fold_nan_element (l : list (F64.t * F64.t)) :
  forall s : F64.t,
    existsb (fun xy => F64.is_nan (fst xy) || F64.is_nan (snd xy)) l = true ->
    fold_left accumulate l s = F64.nan.
Proof.
  induction l as [| [x y] l IH]; intros s H; [discriminate |].
  cbn [existsb fst snd] in H. cbn [fold_left].
  apply orb_prop in H as [H | H].
  - replace (accumulate s (x, y)) with F64.nan; [apply fold_nan |].
    unfold accumulate. cbn [fst snd].
    apply orb_prop in H as [H | H].
    + destruct x; try discriminate. now rewrite mul_nan_l, add_nan_r.
    + destruct y; try discriminate. now rewrite mul_nan_r, add_nan_r.
  - now apply IH.
Qed.

Lemma existsb_combine_nan (a b : list F64.t) :
  length a = length b ->
  existsb F64.is_nan a || existsb F64.is_nan b = true ->
  existsb (fun xy => F64.is_nan (fst xy) || F64.is_nan (snd xy)) (combine a b)
  = true.
Proof.
  revert b. induction a as [| x a IH]; intros [| y b] L H; try discriminate.
  injection L as L. cbn [existsb combine fst snd] in *.
  destruct (F64.is_nan x); [reflexivity |].
  destruct (F64.is_nan y); [reflexivity |].
  cbn [orb] in *. now apply IH.
Qed.

Lemma products_finite_elements (a b : list F64.t) :
  length a = length b ->
  Forall (fun xy => F64.is_finite (F64.mul (fst xy) (snd xy)) = true)
         (combine a b) ->
  forallb F64.is_finite a = true /\ forallb F64.is_finite b = true.
Proof.
  revert b. induction a as [| x a IH]; intros [| y b] L H; try discriminate.
  - now split.
  - injection L as L. cbn [combine] in H.
    inversion H as [| ? ? Hxy H']; subst. cbn [fst snd] in Hxy.
    apply mul_finite_inv in Hxy as [Hx Hy].
    destruct (IH b L H') as [Ha Hb].
    cbn [forallb]. now rewrite Hx, Hy, Ha, Hb.
Qed.

Lemma round_pair_nonneg (p : positive) (e : Z) :
  0 <= fst (round_pair (Zpos p) e).
Proof.
  destruct (round_pair_spec p e _ eq_refl) as [Hle Hgt].
  destruct (Z.le_gt_cases (Z.max (digits p + e - 53) (-1074) - e) 0) as [L | G].
  - rewrite (Hle L). cbn [fst]. lia.
  - destruct (Hgt G) as (m3 & k & -> & H & _). exact H.
Qed.

Lemma round_aux_nonneg (p : positive) (e : Z) :
  nonneg (binary_round_aux F64.prec F64.emax false (Zpos p) e loc_Exact) = true.
Proof.
  rewrite binary_round_aux_pair. pose proof (round_pair_nonneg p e) as H.
  destruct (fst (round_pair (Zpos p) e)) as [| m | m]; try reflexivity; [| lia].
  now destruct (snd (round_pair (Zpos p) e) <=? 971).
Qed.

Lemma round_aux_opp (s : bool) (m e : Z) :
  binary_round_aux F64.prec F64.emax (negb s) m e loc_Exact
  = F64.opp (binary_round_aux F64.prec F64.emax s m e loc_Exact).
Proof.
  rewrite !binary_round_aux_pair.
  destruct (fst (round_pair m e)); try reflexivity.
  now destruct (snd (round_pair m e) <=? 971).
Qed.

Lemma mul_self_nonneg (x : F64.t) :
  F64.is_nan x = false -> nonneg (F64.mul x x) = true.
Proof.
  destruct x as [s | s | | s m e]; intros H; try discriminate.
  - now destruct s.
  - now destruct s.
  - unfold F64.mul, SFmul. rewrite xorb_nilpotent. apply round_aux_nonneg.
Qed.

Lemma add_nonneg (x y : F64.t) :
  nonneg x = true -> nonneg y = true -> nonneg (F64.add x y) = true.
Proof.
  destruct x as [[] | [] | | [] mx ex], y as [[] | [] | | [] my ey];
    intros Hx Hy; try discriminate; try reflexivity.
  unfold F64.add, SFadd. cbn [cond_Zopp].
  set (ez := Z.min ex ey).
  destruct (Zpos (fst (shl_align mx ex ez)) + Zpos (fst (shl_align my ey ez)))
    as [| p | p] eqn:E; try lia.
  cbn [binary_normalize]. unfold binary_round.
  destruct (shl_align p ez _) as [mz e']. apply round_aux_nonneg.
Qed.

Lemma fold_nonneg (l : list F64.t) :
  forall s : F64.t,
    nonneg s = true -> existsb F64.is_nan l = false ->
    nonneg (fold_left accumulate (combine l l) s) = true.
Proof.
  induction l as [| x l IH]; intros s Hs H; [exact Hs |].
  cbn [existsb] in H. apply orb_false_elim in H as [Hx Hl].
  cbn [combine fold_left]. apply IH; [| exact Hl].
  unfold accumulate. cbn [fst snd].
  apply add_nonneg; [exact Hs | now apply mul_self_nonneg].
Qed.

Lemma nonneg_leb (x : F64.t) : nonneg x = true -> F64.leb F64.zero x = true.
Proof. destruct x as [[] | [] | | [] m e]; intros H; try discriminate; reflexivity. Qed.

(** ** Negation *)

Lemma same_value_refl (x : F64.t) : same_value x x.
Proof. now left. Qed.

Lemma same_value_trans (x y z : F64.t) :
  same_value x y -> same_value y z -> same_value x z.
Proof.
  intros [-> | (s & s' & -> & ->)] [<- | (t & t' & E & ->)].
  - now left.
  - right. now exists t, t'.
  - right. now exists s, s'.
  - right. now exists s, t'.
Qed.

Lemma mul_opp_l (x y : F64.t) :
  F64.mul (F64.opp x) y = F64.opp (F64.mul x y).
Proof.
  destruct x as [sx | sx | | sx mx ex], y as [sy | sy | | sy my ey];
    cbn [F64.opp SFopp F64.mul SFmul]; try reflexivity;
    try (now destruct sx, sy).
  rewrite <- round_aux_opp. f_equal. now destruct sx, sy.
Qed.

Lemma normalize_opp (z e : Z) :
  same_value (binary_normalize F64.prec F64.emax (- z) e false)
             (F64.opp (binary_normalize F64.prec F64.emax z e false)).
Proof.
  destruct z as [| p | p]; cbn [Z.opp binary_normalize].
  - right. now exists false, true.
  - left. unfold binary_round.
    destruct (shl_align p e _) as [mz e']. exact (round_aux_opp false _ _).
  - left. unfold binary_round.
    destruct (shl_align p e _) as [mz e'].
    rewrite (round_aux_opp false). unfold F64.opp.
    now destruct (binary_round_aux F64.prec F64.emax false (Zpos mz) e' loc_Exact) as [[] | [] | | [] ? ?].
Qed.

Lemma add_opp (x y : F64.t) :
  same_value (F64.add (F64.opp x) (F64.opp y)) (F64.opp (F64.add x y)).
Proof.
  destruct x as [sx | sx | | sx mx ex], y as [sy | sy | | sy my ey];
    cbn [F64.opp SFopp F64.add SFadd];
    try (left; reflexivity);
    try (destruct sx, sy; cbn; first [left; reflexivity | right; do 2 eexists; split; reflexivity]).
  match goal with
  | |- same_value (binary_normalize _ _ ?z' _ _) (F64.opp (binary_normalize _ _ ?z _ _)) =>
      replace z' with (- z) by (destruct sx, sy; cbn [negb cond_Zopp]; lia)
  end.
  apply normalize_opp.
Qed.

Lemma add_same_value_l (x x' y : F64.t) :
  same_value x x' -> same_value (F64.add x y) (F64.add x' y).
Proof.
  intros [-> | (s & s' & -> & ->)]; [now left |].
  destruct y as [sy | sy | | sy my ey]; cbn [F64.add SFadd];
    try (left; reflexivity).
  destruct s, s', sy; cbn; first [left; reflexivity | right; do 2 eexists; split; reflexivity].
Qed.

Lemma fold_opp (a b : list F64.t) :
  forall s s' : F64.t,
    same_value s' (F64.opp s) ->
    same_value (fold_left accumulate (combine (vec_opp a) b) s')
               (F64.opp (fold_left accumulate (combine a b) s)).
Proof.
  revert b. induction a as [| x a IH]; intros [| y b] s s' H;
    cbn [vec_opp map combine fold_left]; try exact H.
  apply IH. unfold accumulate. cbn [fst snd].
  rewrite mul_opp_l.
  eapply same_value_trans; [apply add_same_value_l, H | apply add_opp].
Qed.

Lemma same_value_eqb (x y : F64.t) :
  same_value x y -> F64.is_nan y = false -> F64.eqb x y = true.
Proof.
  intros [-> | (s & s' & -> & ->)] H; [now apply F64_eqb_refl_iff | reflexivity].
Qed.

(** The exponent left by the two shifts is at most one above the
    exponent the format assigns to the input. *)
Lemma round_pair_exponent (p : positive) (e : Z) :
  snd (round_pair (Zpos p) e)
  <= Z.max (Z.max (digits p + e - 53) (-1074)) e + 1.
Proof.
  set (q := Z.max (digits p + e - 53) (-1074) - e).
  destruct (Z.le_gt_cases q 0) as [L | G].
  - destruct (round_pair_spec p e q eq_refl) as [Hle _].
    rewrite (Hle L). cbn [snd]. lia.
  - assert (Eq : q = Z.max (digits p + e - 53) (-1074) - e) by reflexivity.
    clearbody q.
    unfold round_pair, shr_fexp. cbn [shr_record_of_loc Zdigits2].
    change (Zpos (digits2_pos p)) with (digits p).
    rewrite fexp_val, <- Eq.
    pose proof (digits_pos p) as Dp.
    pose proof (digits_bounds p) as [Bl Bu].
    destruct q as [| qp | qp]; try lia.
    cbn [shr]. rewrite iter_pos_nat.
    pose proof (shifted_iter (Zpos p) (Pos.to_nat qp) ltac:(lia)) as Sh.
    rewrite positive_nat_Z in Sh.
    set (r1 := Nat.iter (Pos.to_nat qp) shr_1
                        (Build_shr_record (Zpos p) false false)) in *.
    destruct (round_after_shift (Zpos p) (Zpos qp) r1 ltac:(lia) Sh)
      as [Hm2 _].
    cbv zeta in Hm2.
    set (m2 := round_nearest_even (shr_m r1) (loc_of_shr_record r1)) in *.
    destruct Sh as (Hm1 & t & E & Ht & _).
    set (D := Z.max (digits p - Zpos qp) 0).
    assert (P : 0 < 2 ^ Zpos qp) by (apply Z.pow_pos_nonneg; lia).
    assert (HD : shr_m r1 < 2 ^ D).
    { rewrite Z.pow_add_r in E by lia.
      assert (shr_m r1 * 2 ^ Zpos qp <= Zpos p)
        by (destruct (shr_r r1); cbn [Z.b2z] in E; nia).
      destruct (Z.le_gt_cases (Zpos qp) (digits p)) as [L | G'].
      - replace D with (digits p - Zpos qp) by lia.
        assert (2 ^ digits p = 2 ^ (digits p - Zpos qp) * 2 ^ Zpos qp)
          by (rewrite <- Z.pow_add_r by lia; f_equal; lia).
        nia.
      - replace D with 0 by lia.
        assert (2 ^ digits p <= 2 ^ Zpos qp)
          by (apply Z.pow_le_mono_r; lia).
        change (2 ^ 0) with 1. nia. }
    assert (Hd2 : Zdigits2 m2 <= D + 1) by (apply Zdigits2_le; lia).
    rewrite fexp_val.
    destruct (Z.max (Zdigits2 m2 + (e + Zpos qp) - 53) (-1074)
              - (e + Zpos qp)) as [| q2 | q2] eqn:E2;
      cbn [shr snd]; lia.
Qed.

(** A rounding whose input is below [2^1023] and not under-normalized
    does not overflow. *)
Lemma round_aux_finite (s : bool) (p : positive) (e : Z) :
  e <= Z.max (digits p + e - 53) (-1074) ->
  digits p + e <= 1023 ->
  F64.is_finite (binary_round_aux F64.prec F64.emax s (Zpos p) e loc_Exact)
  = true.
Proof.
  intros Hq Hd. rewrite binary_round_aux_pair.
  pose proof (round_pair_exponent p e) as He.
  pose proof (round_pair_nonneg p e) as H0.
  destruct (fst (round_pair (Zpos p) e)) as [| m | m]; try reflexivity; [| lia].
  destruct (Z.leb_spec (snd (round_pair (Zpos p) e)) 971); [reflexivity | lia].
Qed.

Lemma binary_round_finite (s : bool) (p : positive) (e : Z) :
  digits p + e <= 1023 ->
  F64.is_finite (binary_round F64.prec F64.emax s p e) = true.
Proof.
  intros Hd. unfold binary_round, shl_align.
  change (Zpos (digits2_pos p)) with (digits p). rewrite fexp_val.
  pose proof (digits_pos p) as Dp.
  destruct (Z.max (digits p + e - 53) (-1074) - e) as [| d | d] eqn:E.
  - apply round_aux_finite; lia.
  - apply round_aux_finite; lia.
  - rewrite pshl_iter. apply round_aux_finite; rewrite digits_pshl; lia.
Qed.

Lemma bpow_lt_inv (a b : Z) : (bpow a < bpow b)%R -> a < b.
Proof.
  intros H. destruct (Z.lt_ge_cases a b) as [L | G]; [exact L |].
  apply bpow_le in G. lra.
Qed.

(** A value below [2^1023] has its leading bit below position 1023. *)
Lemma digits_of_value (p : positive) (e : Z) :
  (IZR (Zpos p) * bpow e < bpow 1023)%R -> digits p + e <= 1023.
Proof.
  intros H. pose proof (digits_bounds p) as [Bl _].
  pose proof (digits_pos p) as Dp. pose proof (bpow_pos e) as Pe.
  apply IZR_le in Bl. rewrite IZR_pow2 in Bl by lia.
  assert (L : (bpow (digits p - 1 + e) <= IZR (Zpos p) * bpow e)%R).
  { rewrite bpow_add. apply Rmult_le_compat_r; lra. }
  assert (bpow (digits p - 1 + e) < bpow 1023)%R by lra.
  apply bpow_lt_inv in H0. lia.
Qed.

Lemma valid_finite (s : bool) (m : positive) (e : Z) :
  F64.valid (S754_finite s m e) = true ->
  Z.max (digits m + e - 53) (-1074) = e.
Proof.
  unfold F64.valid, valid_binary, bounded, canonical_mantissa.
  intros H. apply andb_prop in H as [H _]. apply Z.eqb_eq in H.
  change (Zpos (digits2_pos m)) with (digits m) in H.
  now rewrite fexp_val in H.
Qed.

(** The product of two doubles does not overflow when the exact product
    is below [2^1023]. *)
Lemma mul_finite (x y : F64.t) :
  F64.valid x = true -> F64.valid y = true ->
  F64.is_finite x = true -> F64.is_finite y = true ->
  (Rabs (B2R x * B2R y) < bpow 1023)%R ->
  F64.is_finite (F64.mul x y) = true.
Proof.
  destruct x as [sx | sx | | sx mx ex], y as [sy | sy | | sy my ey];
    intros Vx Vy Fx Fy H; try discriminate; try reflexivity.
  apply valid_finite in Vx, Vy.
  unfold F64.mul, SFmul.
  pose proof (digits_mul_ge mx my) as Dm.
  pose proof (digits_pos mx). pose proof (digits_pos my).
  assert (Hd : digits (mx * my) + (ex + ey) <= 1023).
  { apply digits_of_value.
    change (B2R (S754_finite sx mx ex)) with (sval sx (Zpos mx) ex) in H.
    change (B2R (S754_finite sy my ey)) with (sval sy (Zpos my) ey) in H.
    rewrite Rabs_mult, !sval_abs in H.
    rewrite Pos2Z.inj_mul, mult_IZR, bpow_add.
    replace (IZR (Zpos mx) * IZR (Zpos my) * (bpow ex * bpow ey))%R
      with (IZR (Zpos mx) * bpow ex * (IZR (Zpos my) * bpow ey))%R by ring.
    exact H. }
  apply round_aux_finite; lia.
Qed.

Lemma add_value (sx sy : bool) (mx my : positive) (ex ey : Z) :
  let ez := Z.min ex ey in
  (IZR (cond_Zopp sx (Zpos (fst (shl_align mx ex ez)))
        + cond_Zopp sy (Zpos (fst (shl_align my ey ez))))
   * bpow ez
   = B2R (S754_finite sx mx ex) + B2R (S754_finite sy my ey))%R.
Proof.
  intros ez. cbn [B2R]. rewrite plus_IZR, !IZR_cond_Zopp.
  rewrite !shl_align_value by (subst ez; lia).
  rewrite !mult_IZR, !IZR_pow2 by (subst ez; lia).
  assert (Ex : bpow ex = (bpow (ex - ez) * bpow ez)%R)
    by (rewrite <- bpow_add; f_equal; lia).
  assert (Ey : bpow ey = (bpow (ey - ez) * bpow ez)%R)
    by (rewrite <- bpow_add; f_equal; lia).
  rewrite Ex, Ey. destruct sx, sy; ring.
Qed.

(** The sum of two finite doubles does not overflow when the exact sum
    is below [2^1023]. *)
Lemma add_finite (x y : F64.t) :
  F64.is_finite x = true -> F64.is_finite y = true ->
  (Rabs (B2R x + B2R y) < bpow 1023)%R ->
  F64.is_finite (F64.add x y) = true.
Proof.
  destruct x as [sx | sx | | sx mx ex], y as [sy | sy | | sy my ey];
    intros Fx Fy H; try discriminate; try reflexivity;
    try (now destruct sx, sy).
  unfold F64.add, SFadd. rewrite <- add_value in H. cbv zeta in H.
  set (ez := Z.min ex ey) in *.
  destruct (cond_Zopp sx (Zpos (fst (shl_align mx ex ez)))
            + cond_Zopp sy (Zpos (fst (shl_align my ey ez))))
    as [| p | p]; cbn [binary_normalize]; [reflexivity | |];
    apply binary_round_finite, digits_of_value.
  - change (IZR (Zpos p) * bpow ez)%R with (sval false (Zpos p) ez) in H.
    now rewrite sval_abs in H.
  - change (IZR (Zneg p) * bpow ez)%R with (sval true (Zpos p) ez) in H.
    now rewrite sval_abs in H.
Qed.

Lemma g_ge_1 : (1 <= g)%R.
Proof. unfold g. pose proof u_bounds. lra. Qed.

Lemma reach_step (k N : nat) (T t Rl : R) :
  (k < N)%nat -> (0 <= T)%R -> (0 <= t)%R -> (0 <= Rl)%R ->
  (T + acc_bound k T + (g * t + eta) <= reach N (T + t + Rl))%R.
Proof.
  intros HkN HT Ht HR. unfold acc_bound, reach.
  pose proof g_ge_1 as G1. pose proof eta_pos as E0.
  pose proof (pos_INR k) as K0.
  assert (Pk : (1 <= g ^ k)%R) by apply g_pow_ge_1.
  assert (PkN : (g ^ k <= g ^ N)%R) by (apply Rle_pow; [exact G1 | lia]).
  assert (GkN : (g ^ (k + 1) <= g ^ (N + 1))%R)
    by (apply Rle_pow; [exact G1 | lia]).
  assert (G1N : (g <= g ^ (N + 1))%R).
  { rewrite <- (pow_1 g) at 1. apply Rle_pow; [exact G1 | lia]. }
  assert (KN : (INR k <= INR N)%R) by (apply le_INR; lia).
  set (Gk := (g ^ (k + 1))%R) in *. set (GN := (g ^ (N + 1))%R) in *.
  set (Pk' := (g ^ k)%R) in *. set (PN := (g ^ N)%R) in *.
  assert (A1 : (Gk * T <= GN * T)%R) by (apply Rmult_le_compat_r; lra).
  assert (A2 : (g * t <= GN * t)%R) by (apply Rmult_le_compat_r; lra).
  assert (A3 : (0 <= GN * Rl)%R) by (apply Rmult_le_pos; lra).
  assert (A4 : (INR k * Pk' <= INR N * PN)%R)
    by (apply Rmult_le_compat; lra).
  assert (A5 : (INR k * Pk' * eta <= INR N * PN * eta)%R)
    by (apply Rmult_le_compat_r; lra).
  assert (A6 : (eta <= PN * eta)%R).
  { rewrite <- (Rmult_1_l eta) at 1. apply Rmult_le_compat_r; lra. }
  replace (T + ((Gk - 1) * T + 3 * INR k * Pk' * eta) + (g * t + eta))%R
    with (Gk * T + 3 * (INR k * Pk' * eta) + g * t + eta)%R by ring.
  replace (GN * (T + t + Rl) + (3 * INR N + 1) * PN * eta)%R
    with (GN * T + GN * t + GN * Rl + 3 * (INR N * PN * eta) + PN * eta)%R
    by ring.
  lra.
Qed.

Lemma reach_product (N : nat) (T t Rl : R) :
  (0 <= T)%R -> (0 <= t)%R -> (0 <= Rl)%R ->
  (t <= reach N (T + t + Rl))%R.
Proof.
  intros HT Ht HR. unfold reach.
  pose proof (g_pow_ge_1 (N + 1)) as G1. pose proof (g_pow_ge_1 N) as P1.
  pose proof eta_pos as E0. pose proof (pos_INR N) as N0.
  assert (A1 : (T + t + Rl <= g ^ (N + 1) * (T + t + Rl))%R).
  { rewrite <- (Rmult_1_l (T + t + Rl)) at 1.
    apply Rmult_le_compat_r; lra. }
  assert (A2 : (0 <= (3 * INR N + 1) * g ^ N * eta)%R).
  { apply Rmult_le_pos; [| lra]. apply Rmult_le_pos; lra. }
  lra.
Qed.

(** The loop does not overflow as long as the magnitude it can reach
    stays below [2^1023]. *)
Lemma fold_finite (l : list (F64.t * F64.t)) :
  forall (s : F64.t) (X T : R) (k : nat),
    forallb pair_ok l = true ->
    F64.is_finite s = true ->
    (Rabs (B2R s - X) <= acc_bound k T)%R -> (Rabs X <= T)%R ->
    (reach (k + length l) (T + rabs l) < bpow 1023)%R ->
    F64.is_finite (fold_left accumulate l s) = true.
Proof.
  induction l as [| [x y] l IH]; intros s X T k Hok Fs Hs HS Hb;
    [exact Fs |].
  cbn [forallb] in Hok. apply andb_prop in Hok as [Hxy Hok].
  unfold pair_ok, finite_valid in Hxy. cbn [fst snd] in Hxy.
  apply andb_prop in Hxy as [Hx Hy].
  apply andb_prop in Hx as [Vx Fx]. apply andb_prop in Hy as [Vy Fy].
  cbn [fold_left rabs length fst snd] in *.
  set (t := Rabs (B2R x * B2R y)) in *.
  assert (T0 : (0 <= T)%R) by (pose proof (Rabs_pos X); lra).
  assert (t0 : (0 <= t)%R) by apply Rabs_pos.
  pose proof (rabs_nonneg l) as R0.
  rewrite <- Rplus_assoc in Hb.
  assert (Fp : F64.is_finite (F64.mul x y) = true).
  { apply mul_finite; trivial.
    pose proof (reach_product (k + S (length l)) T t (rabs l) T0 t0 R0).
    fold t. lra. }
  pose proof (mul_error x y Fp) as Em. fold t in Em.
  assert (Fa : F64.is_finite (accumulate s (x, y)) = true).
  { unfold accumulate. cbn [fst snd]. apply add_finite; trivial.
    pose proof (reach_step k (k + S (length l)) T t (rabs l)
                           ltac:(lia) T0 t0 R0) as Rs.
    assert (A1 : (Rabs (B2R s) <= T + acc_bound k T)%R).
    { replace (B2R s) with ((B2R s - X) + X)%R by ring.
      eapply Rle_trans; [apply Rabs_triang |]. lra. }
    assert (A2 : (Rabs (B2R (F64.mul x y)) <= g * t + eta)%R).
    { replace (B2R (F64.mul x y))
        with ((B2R (F64.mul x y) - B2R x * B2R y) + B2R x * B2R y)%R by ring.
      eapply Rle_trans; [apply Rabs_triang |]. fold t. unfold g. lra. }
    eapply Rle_lt_trans; [apply Rabs_triang |]. lra. }
  pose proof Fa as Fa'. unfold accumulate in Fa'. cbn [fst snd] in Fa'.
  pose proof (add_error _ _ Fa') as Ea.
  pose proof (step_bound _ _ _ _ _ _ _ Hs HS Em Ea) as St. fold t in St.
  pose proof (acc_bound_step k T t T0 t0) as Cl.
  apply (IH _ (X + B2R x * B2R y)%R (T + t)%R (S k)); trivial.
  - unfold accumulate. cbn [fst snd]. lra.
  - eapply Rle_trans; [apply Rabs_triang |]. fold t. lra.
  - now rewrite Nat.add_succ_l, <- Nat.add_succ_r.
Qed.

Lemma dot_finite_if_bounded (a b : list F64.t) :
  length a = length b ->
  forallb finite_valid a = true -> forallb finite_valid b = true ->
  (reach (length a) (rabs (combine a b)) < bpow 1023)%R ->
  F64.is_finite (dot_fold a b) = true.
Proof.
  intros L Ha Hb H. unfold dot_fold.
  apply (fold_finite (combine a b) F64.zero 0%R 0%R 0%nat).
  - clear H. revert b L Hb. induction a as [| x a IH]; intros [| y b] L Hb;
      try discriminate; [reflexivity |].
    injection L as L. cbn [forallb combine] in *.
    apply andb_prop in Ha as [Hx Ha]. apply andb_prop in Hb as [Hy Hb].
    unfold pair_ok. cbn [fst snd]. rewrite Hx, Hy. cbn [andb].
    now apply IH.
  - reflexivity.
  - cbn [B2R F64.zero]. rewrite Rminus_0_r, Rabs_R0, acc_bound_0. lra.
  - rewrite Rabs_R0. lra.
  - now rewrite Rplus_0_l, Nat.add_0_l, length_combine, <- L, Nat.min_id.
Qed.

Lemma below_finite (M : Z) (x : F64.t) :
  below M x = true -> F64.is_finite x = true.
Proof. now destruct x. Qed.

Lemma below_value (M : Z) (x : F64.t) :
  below M x = true -> (Rabs (B2R x) <= bpow M)%R.
Proof.
  pose proof (bpow_pos M) as PM.
  destruct x as [s | s | | s m e]; intros H; try discriminate.
  - cbn [B2R]. rewrite Rabs_R0. lra.
  - cbn [below] in H. apply Z.leb_le in H.
    change (B2R (S754_finite s m e)) with (sval s (Zpos m) e).
    rewrite sval_abs.
    pose proof (digits_bounds m) as [_ Bu]. pose proof (digits_pos m).
    apply IZR_lt in Bu. rewrite IZR_pow2 in Bu by lia.
    pose proof (bpow_pos e) as Pe.
    assert (IZR (Zpos m) * bpow e <= bpow (digits m) * bpow e)%R
      by (apply Rmult_le_compat_r; lra).
    rewrite <- bpow_add in H1.
    pose proof (bpow_le (digits m + e) M H). lra.
Qed.

Lemma rabs_below (M M' : Z) (a : list F64.t) :
  forall b : list F64.t,
    forallb (below M) a = true -> forallb (below M') b = true ->
    (rabs (combine a b) <= INR (length a) * bpow (M + M'))%R.
Proof.
  pose proof (bpow_pos (M + M')) as P.
  induction a as [| x a IH]; intros [| y b] Ha Hb.
  - cbn. lra.
  - cbn. lra.
  - cbn [combine rabs]. pose proof (pos_INR (length (x :: a))). nra.
  - cbn [forallb] in Ha, Hb.
    apply andb_prop in Ha as [Hx Ha]. apply andb_prop in Hb as [Hy Hb].
    cbn [combine rabs fst snd length]. rewrite S_INR.
    specialize (IH b Ha Hb).
    pose proof (below_value M x Hx) as Bx.
    pose proof (below_value M' y Hy) as By.
    rewrite Rabs_mult, bpow_add in *.
    assert (Rabs (B2R x) * Rabs (B2R y) <= bpow M * bpow M')%R
      by (apply Rmult_le_compat; auto using Rabs_pos).
    lra.
Qed.

(** [(1+u)^m <= 1 + 2 m u] as long as [2 m u <= 1]. *)
Lemma g_pow_linear (m : nat) :
  (2 * INR m * u <= 1)%R -> (g ^ m <= 1 + 2 * INR m * u)%R.
Proof.
  pose proof u_bounds as [U0 U1].
  induction m as [| m IH]; intros H.
  - cbn. lra.
  - rewrite S_INR in *. cbn [pow].
    pose proof (pos_INR m) as M0.
    assert (A : (0 <= INR m * u)%R) by (apply Rmult_le_pos; lra).
    assert (H' : (2 * INR m * u <= 1)%R) by lra.
    specialize (IH H'). unfold g in *.
    assert (B : ((1 + u) * (1 + u) ^ m <= (1 + u) * (1 + 2 * INR m * u))%R)
      by (apply Rmult_le_compat_l; lra).
    assert (C : (2 * INR m * u * u <= u)%R).
    { rewrite <- (Rmult_1_l u) at 3. apply Rmult_le_compat_r; lra. }
    lra.
Qed.

Lemma u_53 : (u * 9007199254740992 = 1)%R.
Proof.
  assert (H : (u * bpow 53 = 1)%R).
  { unfold u. rewrite <- bpow_add. reflexivity. }
  rewrite <- IZR_pow2 in H by lia. exact H.
Qed.

(** With at most [2^50] elements the accumulated factor stays below 2. *)
Lemma g_pow_le_2 (n : nat) :
  Z.of_nat n <= 2 ^ 50 -> (g ^ (n + 1) <= 2)%R /\ (g ^ n <= 2)%R.
Proof.
  intros H. pose proof u_53 as U. pose proof u_bounds as [U0 U1].
  assert (N : (INR n <= 1125899906842624)%R).
  { rewrite INR_IZR_INZ. apply IZR_le. exact H. }
  pose proof (pos_INR n) as N0.
  assert (A : (INR n * u <= 1125899906842624 * u)%R)
    by (apply Rmult_le_compat_r; lra).
  assert (L1 : (g ^ (n + 1) <= 1 + 2 * INR (n + 1) * u)%R).
  { apply g_pow_linear. rewrite plus_INR. cbn [INR]. lra. }
  rewrite plus_INR in L1. cbn [INR] in L1.
  assert (L2 : (g ^ n <= g ^ (n + 1))%R)
    by (apply (Rle_pow g n (n + 1) g_ge_1); lia).
  split; lra.
Qed.

Lemma reach_below (a b : list F64.t) (M M' K : Z) :
  forallb (below M) a = true -> forallb (below M') b = true ->
  Z.of_nat (length a) <= 2 ^ K -> 0 <= K <= 50 -> M + M' + K <= 1021 ->
  (reach (length a) (rabs (combine a b)) < bpow 1023)%R.
Proof.
  intros Ha Hb Hn HK HM. unfold reach.
  assert (N50 : Z.of_nat (length a) <= 2 ^ 50).
  { assert (2 ^ K <= 2 ^ 50) by (apply Z.pow_le_mono_r; lia). lia. }
  destruct (g_pow_le_2 _ N50) as [G1 G2].
  pose proof (g_pow_ge_1 (length a + 1)) as G1'.
  pose proof (g_pow_ge_1 (length a)) as G2'.
  pose proof (rabs_below M M' a b Ha Hb) as T.
  pose proof (rabs_nonneg (combine a b)) as T0.
  pose proof (pos_INR (length a)) as N0.
  pose proof u_53 as U. pose proof u_bounds as [U0 U1]. pose proof eta_pos as E0.
  assert (E : (eta <= u)%R) by (apply bpow_le; lia).
  assert (N : (INR (length a) <= 1125899906842624)%R).
  { rewrite INR_IZR_INZ. apply IZR_le. exact N50. }
  assert (NK : (INR (length a) <= bpow K)%R).
  { rewrite INR_IZR_INZ, <- IZR_pow2 by lia. now apply IZR_le. }
  assert (TK : (rabs (combine a b) <= bpow 1021)%R).
  { pose proof (bpow_pos (M + M')) as P.
    assert (INR (length a) * bpow (M + M') <= bpow K * bpow (M + M'))%R
      by (apply Rmult_le_compat_r; lra).
    rewrite <- bpow_add in H.
    pose proof (bpow_le (K + (M + M')) 1021 ltac:(lia)). lra. }
  assert (B22 : (bpow 1023 = 4 * bpow 1021)%R).
  { replace 1023 with (2 + 1021) by lia. rewrite bpow_add.
    rewrite <- (IZR_pow2 2) by lia. reflexivity. }
  assert (B1 : (1 <= bpow 1021)%R).
  { change 1%R with (bpow 0). apply bpow_le. lia. }
  assert (P1 : (g ^ (length a + 1) * rabs (combine a b) <= 2 * bpow 1021)%R)
    by (apply Rmult_le_compat; lra).
  assert (P2 : ((3 * INR (length a) + 1) * g ^ length a
                <= (3 * 1125899906842624 + 1) * 2)%R)
    by (apply Rmult_le_compat; lra).
  assert (P3 : ((3 * INR (length a) + 1) * g ^ length a * eta
                <= (3 * 1125899906842624 + 1) * 2 * u)%R)
    by (apply Rmult_le_compat; try lra; apply Rmult_le_pos; lra).
  lra.
Qed.

Lemma round_pair_emin (p : positive) (e : Z) :
  -1074 <= snd (round_pair (Zpos p) e).
Proof.
  destruct (round_pair_spec p e _ eq_refl) as [Hle Hgt].
  destruct (Z.le_gt_cases (Z.max (digits p + e - 53) (-1074) - e) 0) as [L | G].
  - rewrite (Hle L). cbn [snd]. lia.
  - destruct (Hgt G) as (m3 & k & -> & _ & Hk & _). cbn [snd]. lia.
Qed.

Lemma round_aux_expo (s : bool) (p : positive) (e : Z) :
  expo_ok (binary_round_aux F64.prec F64.emax s (Zpos p) e loc_Exact) = true.
Proof.
  rewrite binary_round_aux_pair. pose proof (round_pair_emin p e) as H.
  destruct (fst (round_pair (Zpos p) e)); try reflexivity.
  destruct (snd (round_pair (Zpos p) e) <=? 971); [| reflexivity].
  cbn [expo_ok]. now apply Z.leb_le.
Qed.

(** Above [emin] a non-zero input is never rounded to zero. *)
Lemma round_pair_nonzero (p : positive) (e : Z) :
  -1074 <= e -> 0 < fst (round_pair (Zpos p) e).
Proof.
  intros He. destruct (round_pair_spec p e _ eq_refl) as [Hle Hgt].
  destruct (Z.le_gt_cases (Z.max (digits p + e - 53) (-1074) - e) 0) as [L | G].
  - rewrite (Hle L). cbn [fst]. lia.
  - destruct (Hgt G) as (m3 & k & -> & H0 & Hk & Herr). cbn [fst].
    destruct (Z.eq_dec m3 0) as [-> | N]; [| lia].
    exfalso. rewrite Z.mul_0_l, Z.sub_0_l, Z.abs_opp in Herr.
    cbn [Z.abs] in Herr.
    set (q := Z.max (digits p + e - 53) (-1074) - e) in *.
    assert (Zpos p < 2 ^ (digits p - 1)).
    { assert (2 ^ q <= 2 ^ (digits p - 1)) by (apply Z.pow_le_mono_r; lia).
      lia. }
    pose proof (digits_bounds p). lia.
Qed.

Lemma round_aux_not_zero (s : bool) (p : positive) (e : Z) :
  -1074 <= e ->
  not_neg_zero (binary_round_aux F64.prec F64.emax s (Zpos p) e loc_Exact)
  = true.
Proof.
  intros He. rewrite binary_round_aux_pair.
  pose proof (round_pair_nonzero p e He) as H.
  destruct (fst (round_pair (Zpos p) e)); try reflexivity; [lia |].
  now destruct (snd (round_pair (Zpos p) e) <=? 971).
Qed.

Lemma binary_round_props (s : bool) (p : positive) (e : Z) :
  -1074 <= e ->
  not_neg_zero (binary_round F64.prec F64.emax s p e) = true /\
  expo_ok (binary_round F64.prec F64.emax s p e) = true.
Proof.
  intros He. unfold binary_round, shl_align.
  change (Zpos (digits2_pos p)) with (digits p). rewrite fexp_val.
  destruct (Z.max (digits p + e - 53) (-1074) - e) as [| d | d] eqn:E;
    (split; [apply round_aux_not_zero; lia | apply round_aux_expo]).
Qed.

Lemma mul_expo (x y : F64.t) : expo_ok (F64.mul x y) = true.
Proof.
  destruct x as [sx | sx | | sx mx ex], y as [sy | sy | | sy my ey];
    try reflexivity.
  apply round_aux_expo.
Qed.

(** Adding to an accumulator that is not [-0.0] never gives [-0.0]. *)
Lemma add_not_neg_zero (x y : F64.t) :
  not_neg_zero x = true -> expo_ok x = true -> expo_ok y = true ->
  not_neg_zero (F64.add x y) = true /\ expo_ok (F64.add x y) = true.
Proof.
  destruct x as [[] | sx | | sx mx ex], y as [sy | sy | | sy my ey];
    intros Nx Ex Ey; try discriminate;
    try (split; [reflexivity | assumption || reflexivity]);
    try (destruct sy; split; reflexivity);
    try (destruct sx, sy; split; reflexivity).
  cbn [expo_ok] in Ex, Ey. apply Z.leb_le in Ex, Ey.
  unfold F64.add, SFadd.
  destruct (cond_Zopp sx (Zpos (fst (shl_align mx ex (Z.min ex ey))))
            + cond_Zopp sy (Zpos (fst (shl_align my ey (Z.min ex ey)))))
    as [| p | p]; cbn [binary_normalize];
    [split; reflexivity | |]; apply binary_round_props; lia.
Qed.

Lemma fold_not_neg_zero (l : list (F64.t * F64.t)) :
  forall s : F64.t,
    not_neg_zero s = true -> expo_ok s = true ->
    not_neg_zero (fold_left accumulate l s) = true.
Proof.
  induction l as [| xy l IH]; intros s Hs He; [exact Hs |].
  cbn [fold_left].
  destruct (add_not_neg_zero s (F64.mul (fst xy) (snd xy)) Hs He
                             (mul_expo _ _)) as [N E].
  now apply IH.
Qed.

Lemma finite_valid_below (M : Z) (a : list F64.t) :
  forallb F64.valid a = true -> forallb (below M) a = true ->
  forallb finite_valid a = true.
Proof.
  induction a as [| x a IH]; intros Hv Hb; [reflexivity |].
  cbn [forallb] in *.
  apply andb_prop in Hv as [Vx Hv]. apply andb_prop in Hb as [Bx Hb].
  unfold finite_valid at 1. rewrite Vx, (below_finite M x Bx). cbn [andb].
  now apply IH.
Qed.

(** ** Further properties of [dot_cpp] *)

(** X1. When [dot] returns a finite value on sequences of one length
    [n], that value differs from the exact sum of the products
    [a_i * b_i] by at most
    [((1+u)^(n+1) - 1) S + 3 n (1+u)^n eta], where [S] is the sum of the
    [|a_i * b_i|], [u = 2^-53] and [eta = 2^-1075]. *)
Theorem dot_rounding_error (a b : list F64.t) (r : F64.t) :
  length a = length b -> dot a b = Ret r -> F64.is_finite r = true ->
  (Rabs (B2R r - rsum (combine a b))
   <= acc_bound (length a) (rabs (combine a b)))%R.
Proof.
  intros L H F. rewrite dot_equal_length in H by exact L.
  injection H as <-. pose proof (dot_fold_error a b F) as E.
  now rewrite length_combine, <- L, Nat.min_id in E.
Qed.

Lemma dot_rounding_error_witness :
  length round_a = length round_b /\
  dot round_a round_b = Ret (F64.of_Z (2 ^ 53)) /\
  F64.is_finite (F64.of_Z (2 ^ 53)) = true /\
  (Rabs (B2R (F64.of_Z (2 ^ 53)) - rsum (combine round_a round_b))
   <= acc_bound (length round_a) (rabs (combine round_a round_b)))%R.
Proof.
  repeat (split; [vm_compute; reflexivity |]).
  apply (dot_rounding_error round_a round_b); vm_compute; reflexivity.
Defined.

(** X2. On sequences of one length that hold integers below [2^53] in
    magnitude, with the sum of the [|a_i| * |b_i|] below [2^53], no
    operation of the loop rounds: [dot] returns the double whose value is
    the integer dot product. *)
Theorem dot_exact_on_integers (za zb : list Z) :
  length za = length zb ->
  forallb smallb za = true -> forallb smallb zb = true ->
  mass za zb < 2 ^ 53 ->
  dot (ints za) (ints zb) = Ret (F64.of_Z (zdot za zb)) /\
  B2R (F64.of_Z (zdot za zb)) = IZR (zdot za zb).
Proof.
  intros L Ha Hb Hm.
  apply (forallb_Forall smallb small) in Ha;
    [| intros x Hx; now apply Z.ltb_lt].
  apply (forallb_Forall smallb small) in Hb;
    [| intros x Hx; now apply Z.ltb_lt].
  split; [now apply dot_ints |].
  apply B2R_of_Z. pose proof (zdot_le_mass za zb). unfold small. lia.
Qed.

Lemma dot_exact_on_integers_witness :
  length sample_za = length sample_zb /\
  forallb smallb sample_za = true /\ forallb smallb sample_zb = true /\
  mass sample_za sample_zb < 2 ^ 53 /\
  dot (ints sample_za) (ints sample_zb)
  = Ret (F64.of_Z (zdot sample_za sample_zb)) /\
  B2R (F64.of_Z (zdot sample_za sample_zb)) = IZR (zdot sample_za sample_zb).
Proof.
  repeat (split; [vm_compute; reflexivity |]).
  apply (dot_exact_on_integers sample_za sample_zb); vm_compute; reflexivity.
Defined.

(** X3. When the two lengths differ the call throws before it reads any
    element: the state, the record of reads included, is left exactly as
    it was. *)
Theorem dot_mismatch_reads_nothing (st : state) :
  length (arrA st) <> length (arrB st) ->
  dot_cpp st = (Throw LengthMismatch, st).
Proof.
  destruct st as [a b log]. cbn [arrA arrB]. apply dot_cpp_mismatch.
Qed.

Lemma dot_mismatch_reads_nothing_witness :
  length (arrA (mkState sample_a sample_b4 [])) 
  <> length (arrB (mkState sample_a sample_b4 [])) /\
  dot_cpp (mkState sample_a sample_b4 [])
  = (Throw LengthMismatch, mkState sample_a sample_b4 []).
Proof.
  split; [cbn; lia |].
  apply (dot_mismatch_reads_nothing (mkState sample_a sample_b4 [])).
  cbn; lia.
Defined.

(** X4. A finite result is returned only on finite inputs: if [dot]
    returns a finite value, no element of either sequence is an infinity
    or a NaN. *)
Theorem dot_finite_needs_finite_inputs (a b : list F64.t) (r : F64.t) :
  length a = length b -> dot a b = Ret r -> F64.is_finite r = true ->
  forallb F64.is_finite a = true /\ forallb F64.is_finite b = true.
Proof.
  intros L H F. rewrite dot_equal_length in H by exact L.
  injection H as <-. unfold dot_fold in F.
  apply (products_finite_elements a b L).
  exact (fold_products_finite _ _ F).
Qed.

Lemma dot_finite_needs_finite_inputs_witness :
  length sample_a = length sample_b /\
  dot sample_a sample_b = Ret (F64.of_Z 32) /\
  F64.is_finite (F64.of_Z 32) = true /\
  forallb F64.is_finite sample_a = true /\
  forallb F64.is_finite sample_b = true.
Proof.
  repeat (split; [vm_compute; reflexivity |]).
  apply (dot_finite_needs_finite_inputs sample_a sample_b (F64.of_Z 32));
    vm_compute; reflexivity.
Defined.

(** X5. A NaN anywhere in either sequence makes the result a NaN. *)
Theorem dot_nan_propagates (a b : list F64.t) :
  length a = length b ->
  existsb F64.is_nan a || existsb F64.is_nan b = true ->
  dot a b = Ret F64.nan.
Proof.
  intros L H. rewrite dot_equal_length by exact L. f_equal.
  apply fold_nan_element. now apply existsb_combine_nan.
Qed.

Lemma dot_nan_propagates_witness :
  length sample_nan = length sample_b /\
  existsb F64.is_nan sample_nan || existsb F64.is_nan sample_b = true /\
  dot sample_nan sample_b = Ret F64.nan.
Proof.
  repeat (split; [vm_compute; reflexivity |]).
  apply (dot_nan_propagates sample_nan sample_b); vm_compute; reflexivity.
Defined.

(** X6. The dot product of a sequence with itself is never negative:
    for a sequence without NaN, [dot(a, a)] returns a value [r] with
    [0.0 <= r] (possibly [+inf]). *)
Theorem dot_self_nonneg (a : list F64.t) :
  existsb F64.is_nan a = false ->
  exists r, dot a a = Ret r /\ nonneg r = true /\ F64.leb F64.zero r = true.
Proof.
  intros H. exists (dot_fold a a).
  assert (N : nonneg (dot_fold a a) = true)
    by (apply fold_nonneg; [reflexivity | exact H]).
  repeat split; [now apply dot_equal_length | exact N | now apply nonneg_leb].
Qed.

Lemma dot_self_nonneg_witness :
  existsb F64.is_nan sample_signed = false /\
  exists r, dot sample_signed sample_signed = Ret r /\
            nonneg r = true /\ F64.leb F64.zero r = true.
Proof.
  split; [reflexivity |].
  apply (dot_self_nonneg sample_signed). reflexivity.
Defined.

(** X7. Negating every element of the first sequence negates the
    result, up to the sign of a zero: [dot(-a, b) == -dot(a, b)] whenever
    the result is not a NaN. *)
Theorem dot_opp (a b : list F64.t) :
  length a = length b ->
  exists r r',
    dot a b = Ret r /\ dot (vec_opp a) b = Ret r' /\
    same_value r' (F64.opp r) /\
    (F64.is_nan r = false -> F64.eqb r' (F64.opp r) = true).
Proof.
  intros L. exists (dot_fold a b), (dot_fold (vec_opp a) b).
  assert (S : same_value (dot_fold (vec_opp a) b) (F64.opp (dot_fold a b))).
  { apply fold_opp. right. now exists false, true. }
  repeat split.
  - now apply dot_equal_length.
  - apply dot_equal_length. unfold vec_opp. now rewrite length_map.
  - exact S.
  - intros N. apply same_value_eqb; [exact S |].
    now destruct (dot_fold a b).
Qed.

Lemma dot_opp_witness :
  length sample_signed = length sample_b /\
  exists r r',
    dot sample_signed sample_b = Ret r /\
    dot (vec_opp sample_signed) sample_b = Ret r' /\
    same_value r' (F64.opp r) /\
    (F64.is_nan r = false -> F64.eqb r' (F64.opp r) = true).
Proof.
  split; [reflexivity |].
  apply (dot_opp sample_signed sample_b). reflexivity.
Defined.

(** X8. On valid doubles with [|a_i| < 2^M] and [|b_i| < 2^M'], at most
    [2^K] elements, [K <= 50] and [M + M' + K <= 1021], the loop never
    overflows: [dot] returns a finite value, within the bound of X1 of the
    exact sum. *)
Theorem dot_no_overflow (a b : list F64.t) (M M' K : Z) :
  length a = length b ->
  forallb F64.valid a = true -> forallb F64.valid b = true ->
  forallb (below M) a = true -> forallb (below M') b = true ->
  Z.of_nat (length a) <= 2 ^ K -> 0 <= K <= 50 -> M + M' + K <= 1021 ->
  exists r,
    dot a b = Ret r /\ F64.is_finite r = true /\
    (Rabs (B2R r - rsum (combine a b))
     <= acc_bound (length a) (rabs (combine a b)))%R.
Proof.
  intros L Va Vb Ha Hb Hn HK HM. exists (dot_fold a b).
  assert (F : F64.is_finite (dot_fold a b) = true).
  { apply dot_finite_if_bounded; trivial.
    - now apply (finite_valid_below M).
    - now apply (finite_valid_below M').
    - now apply (reach_below a b M M' K). }
  split; [now apply dot_equal_length |]. split; [exact F |].
  pose proof (dot_fold_error a b F) as E.
  now rewrite length_combine, <- L, Nat.min_id in E.
Qed.

Lemma dot_no_overflow_witness :
  length sample_a = length sample_b /\
  forallb F64.valid sample_a = true /\ forallb F64.valid sample_b = true /\
  forallb (below 2) sample_a = true /\ forallb (below 3) sample_b = true /\
  Z.of_nat (length sample_a) <= 2 ^ 2 /\ 0 <= 2 <= 50 /\ 2 + 3 + 2 <= 1021 /\
  exists r,
    dot sample_a sample_b = Ret r /\ F64.is_finite r = true /\
    (Rabs (B2R r - rsum (combine sample_a sample_b))
     <= acc_bound (length sample_a) (rabs (combine sample_a sample_b)))%R.
Proof.
  repeat (split; [first [vm_compute; reflexivity | lia | vm_compute; discriminate] |]).
  apply (dot_no_overflow sample_a sample_b 2 3 2);
    first [vm_compute; reflexivity | lia | vm_compute; discriminate].
Defined.

(** X9. Built with the product rounded before the sum, [dot] never
    returns [-0.0], whatever the inputs and the order of the reads: the
    accumulator starts at [+0.0] and no addition of the loop brings it to
    [-0.0].  The condition on the build is needed: with the statement
    contracted to one fused multiply-add, [dot] returns [-0.0] on
    [[-2^-1074]] and [[0.5]]. *)
Theorem dot_never_negative_zero (sched : Z -> order) :
  (forall (st : state) (r : F64.t),
      fst (dot_cpp_as false sched st) = Ret r -> r <> S754_zero true) /\
  fst (dot_cpp_as true sched (mkState [tiny_negative] [one_half] []))
  = Ret (S754_zero true).
Proof.
  split.
  - intros st r H ->. rewrite dot_cpp_as_outcome in H.
    destruct (Nat.eqb (length (arrA st)) (length (arrB st)));
      [| discriminate].
    injection H as H.
    pose proof (fold_not_neg_zero (combine (arrA st) (arrB st)) F64.zero
                                  eq_refl eq_refl) as N.
    change (accumulate_as false) with accumulate in H.
    rewrite H in N. discriminate.
  - rewrite dot_cpp_as_outcome. reflexivity.
Qed.

Lemma dot_never_negative_zero_witness :
  fst (dot_cpp_as false alternating
                  (mkState [tiny_negative] [one_half] [])) = Ret F64.zero /\
  F64.zero <> S754_zero true.
Proof.
  split; [vm_compute; reflexivity |].
  apply (proj1 (dot_never_negative_zero alternating)
               (mkState [tiny_negative] [one_half] []) F64.zero).
  vm_compute. reflexivity.
Defined.
